(** * AlphaClean: the constraint algebra and the tree search

    A shallow embedding of [alphaclean/constraints.py] and of
    [alphaclean/search.py].

    Conventions of the embedding.
    - numpy vectors of floats are lists of rationals ([Q]): the scores
      are the exact values of the quotients the code computes. One
      quality function, [CellEdit._qfn], adds several rounded quotients
      into one entry, and for it rounding shows in the result; it is
      embedded a second time over binary64 numbers ([CellEdit__qfn_b64]).
    - A Python call that can raise is a computation in the error monad
      [exc]; a bare [except:] is a match on [Raise _].
    - A Python object is a record of the attributes the code reads; an
      attribute an instance was never given is [None], and reading it
      raises [AttributeError].
    - A DataFrame is its column labels and its rows; frames are values,
      so [df.copy()] is [df]. *)

From Stdlib Require Import QArith Qminmax Lqa Floats.
From stdpp Require Import gmap strings list fin_maps pretty.

Local Open Scope Q_scope.
Local Open Scope stdpp_scope.

Set Warnings "-clear-no-such-hyp".

(** ** Exceptions *)

Inductive exn :=
  | TypeError | AttributeError | KeyError | IndexError
  | ZeroDivisionError | ValueError.

Inductive exc (A : Type) :=
  | Ok (a : A)
  | Raise (e : exn).
Arguments Ok {A} a.
Arguments Raise {A} e.

#[global] Instance exc_ret : MRet exc := λ A a, Ok a.
#[global] Instance exc_bind : MBind exc := λ A B f m,
  match m with Ok a => f a | Raise e => Raise e end.

(** [try: m except: h] *)
Definition try_except {A} (m : exc A) (h : exc A) : exc A :=
  match m with Ok a => Ok a | Raise _ => h end.

(** [for x in xs: s = body x s], stopping at the first exception. *)
Fixpoint for_each {X S} (xs : list X) (body : X → S → exc S) (s : S) : exc S :=
  match xs with
  | [] => Ok s
  | x :: xs' => s' ← body x s; for_each xs' body s'
  end.

(** [for i in range(n)] *)
Definition for_range {S} (n : nat) (body : nat → S → exc S) (s : S) : exc S :=
  for_each (seq 0 n) body s.

(** ** Cell values and data frames *)

(** A cell holds [None], a string, an integer or a float NaN; other
    floats are not modelled. [VNaN id] is a NaN of a float column. A
    float array holds numbers, not objects: each read of the cell makes
    a float object of its own, which [id] names (see [box]). A NaN is
    not equal to itself, so as dictionary keys or set members two NaN
    are the same only when they are the same object. *)
Inductive value :=
  | VNone
  | VStr (s : string)
  | VInt (z : Z)
  | VNaN (id : nat).

#[global] Instance value_eq_dec : EqDecision value.
Proof. solve_decision. Defined.

#[global] Instance value_countable : Countable value.
Proof.
  refine (inj_countable'
    (λ v, match v with
          | VNone => inl ()
          | VStr s => inr (inl s)
          | VInt z => inr (inr (inl z))
          | VNaN id => inr (inr (inr id))
          end)
    (λ x, match x with
          | inl _ => VNone
          | inr (inl s) => VStr s
          | inr (inr (inl z)) => VInt z
          | inr (inr (inr id)) => VNaN id
          end) _).
  by intros [].
Defined.

(** [str(v)] *)
Definition py_str (v : value) : string :=
  match v with
  | VNone => "None"
  | VStr s => s
  | VInt z => pretty z
  | VNaN _ => "nan"
  end.

Record DataFrame := mkDataFrame {
  columns : list string;
  values : list (list value);
}.

(** [df.shape[0]] and [df.shape[1]] *)
Definition nrows (df : DataFrame) : nat := length (values df).
Definition ncols (df : DataFrame) : nat := length (columns df).

(** The positions of the columns that carry the label [c]; labels can
    repeat. *)
Fixpoint column_positions (cols : list string) (c : string) : list nat :=
  match cols with
  | [] => []
  | c' :: cols' =>
      (if decide (c' = c) then [0%nat] else []) ++ (S <$> column_positions cols' c)
  end.

(** The position of the one column labelled [c], for [df[c]] used as a
    column of scalars. A label no column carries is a [KeyError]. For a
    label several columns carry, [df[c]] is a frame, [df[c].iloc[i]] a
    row of it, and the truth value of its comparison with [None]
    (line 133) a [ValueError]. *)
Definition column_index (cols : list string) (c : string) : exc nat :=
  match column_positions cols c with
  | [] => Raise KeyError
  | [j] => Ok j
  | _ => Raise ValueError
  end.

(** The positions [df[[c]]] selects: every column labelled [c]. *)
Definition label_positions (cols : list string) (c : string) : exc (list nat) :=
  match column_positions cols c with
  | [] => Raise KeyError
  | js => Ok js
  end.

Definition cell (row : list value) (j : nat) : exc value :=
  match row !! j with Some v => Ok v | None => Raise IndexError end.

(** [df.iloc[i, j]] *)
Definition iloc (df : DataFrame) (i j : nat) : exc value :=
  match values df !! i with
  | Some row => cell row j
  | None => Raise IndexError
  end.

(** Map a fallible function over a list, left to right. *)
Fixpoint mapM {X Y} (f : X → exc Y) (xs : list X) : exc (list Y) :=
  match xs with
  | [] => Ok []
  | x :: xs' => y ← f x; ys ← mapM f xs'; Ok (y :: ys)
  end.

(** [df[c]], the column labelled [c] *)
Definition getitem (df : DataFrame) (c : string) : exc (list value) :=
  j ← column_index (columns df) c;
  mapM (λ row, cell row j) (values df).

(** [df[cs]], the sub-frame of the columns that carry the listed
    labels, label by label *)
Definition getitems (df : DataFrame) (cs : list string) : exc DataFrame :=
  jss ← mapM (label_positions (columns df)) cs;
  rows ← mapM (λ row, mapM (cell row) (concat jss)) (values df);
  Ok (mkDataFrame (zip cs jss ≫= λ cj, replicate (length cj.2) cj.1) rows).

(** The objects one read of a row yields: every NaN is a new float
    object, named [fresh]. *)
Definition box (fresh : nat) (row : list value) : list value :=
  (λ v, match v with VNaN _ => VNaN fresh | _ => v end) <$> row.

(** [tuple(df.iloc[i, :])], as the read number [fresh] *)
Definition tuple_iloc (fresh : nat) (df : DataFrame) (i : nat) : exc (list value) :=
  match values df !! i with
  | Some row => Ok (box fresh row)
  | None => Raise IndexError
  end.

(** [s.iloc[i]] on a column *)
Definition series_iloc (s : list value) (i : nat) : exc value :=
  match s !! i with Some v => Ok v | None => Raise IndexError end.

(** ** numpy vectors *)

Abbreviation Vec := (list Q).

(** [a[i]] *)
Definition np_getitem (a : Vec) (i : nat) : exc Q :=
  match a !! i with Some x => Ok x | None => Raise IndexError end.

Definition np_ones (n : nat) : Vec := replicate n 1.
Definition np_zeros (n : nat) : Vec := replicate n 0.
Definition np_sum (v : Vec) : Q := foldr Qplus 0 v.

(** Elementwise binary operation of two one-dimensional arrays; shapes
    that do not broadcast raise [ValueError], a length-one array is
    stretched. *)
Definition np_zip (f : Q → Q → Q) (a b : Vec) : exc Vec :=
  if decide (length a = length b) then Ok (zip_with f a b)
  else match a, b with
       | [x], _ => Ok (map (f x) b)
       | _, [y] => Ok (map (λ x, f x y) a)
       | _, _ => Raise ValueError
       end.

Definition np_add : Vec → Vec → exc Vec := np_zip Qplus.
Definition np_maximum : Vec → Vec → exc Vec := np_zip Qmax.
Definition np_scale (w : Q) (a : Vec) : Vec := map (Qmult w) a.
Definition np_div (a : Vec) (d : Q) : Vec := map (λ x, x / d) a.

(** ** Constraint objects

    [qfn] is what [c.qfn] is bound to: the method [Constraint.qfn]
    closed over the instance, or the lambda a composite was given. *)

Record Constraint := mkConstraint {
  qfn : DataFrame → exc Vec;
  hint : option (gset string);
  hintParams : option (gmap string (list value));
}.

(** The right operand of [+] and [*]: a constraint or a number. *)
Inductive pyobj :=
  | PConstraint (c : Constraint)
  | PFloat (w : Q).

(** [float(o)] *)
Definition py_float (o : pyobj) : exc Q :=
  match o with
  | PFloat w => Ok w
  | PConstraint _ => Raise TypeError
  end.

Definition get_hint (c : Constraint) : exc (gset string) :=
  match hint c with Some h => Ok h | None => Raise AttributeError end.

Definition get_hintParams (c : Constraint) : exc (gmap string (list value)) :=
  match hintParams c with Some p => Ok p | None => Raise AttributeError end.

(** [o.hint], [o.hintParams], [o.qfn(df)] on an arbitrary operand *)
Definition obj_hint (o : pyobj) : exc (gset string) :=
  match o with
  | PConstraint c => get_hint c
  | PFloat _ => Raise AttributeError
  end.

Definition obj_hintParams (o : pyobj) : exc (gmap string (list value)) :=
  match o with
  | PConstraint c => get_hintParams c
  | PFloat _ => Raise AttributeError
  end.

Definition obj_qfn (o : pyobj) (df : DataFrame) : exc Vec :=
  match o with
  | PConstraint c => qfn c df
  | PFloat _ => Raise AttributeError
  end.

(** [d.update(o)] on a copy of [d]: the keys of [o] override. *)
Definition dict_update {V} (d o : gmap string V) : gmap string V := o ∪ d.

(** [Constraint.qfn] *)
Definition Constraint_qfn (_qfn : DataFrame → exc Vec) (df : DataFrame) : exc Vec :=
  try_except (_qfn df) (let N := nrows df in Ok (np_ones N)).

(** [Constraint._qfn]: [raise NotImplemented(...)] calls a value that is
    not callable. *)
Definition Constraint__qfn (df : DataFrame) : exc Vec := Raise TypeError.

(** [Constraint.__init__]; [codebook] is [self.codebook] when the
    instance has that attribute, and [_qfn] the method of its class. *)
Definition Constraint_init (_qfn : DataFrame → exc Vec) (h : gset string)
    (codebook : option (list value)) : Constraint :=
  {| qfn := Constraint_qfn _qfn;
     hint := Some h;
     hintParams :=
       Some (match codebook with
             | Some cb => {["codebook" := cb]}
             | None => ∅
             end) |}.

(** [Constraint()] *)
Definition Constraint_new : Constraint := Constraint_init Constraint__qfn ∅ None.

(** [Constraint.__add__] *)
Definition Constraint_add (self : Constraint) (other : pyobj) : exc Constraint :=
  let c_qfn := λ df,
    a ← qfn self df; b ← obj_qfn other df;
    s ← np_add a b; Ok (np_div s 2) in
  h1 ← get_hint self; h2 ← obj_hint other;
  p1 ← get_hintParams self; p2 ← obj_hintParams other;
  Ok (mkConstraint c_qfn (Some (h1 ∪ h2)) (Some (dict_update p1 p2))).

(** [Constraint.__mul__] *)
Definition Constraint_mul (self : Constraint) (other : pyobj) : exc Constraint :=
  try_except
    (fother ← py_float other;
     let c_qfn := λ df, a ← qfn self df; Ok (np_scale fother a) in
     h1 ← get_hint self; h2 ← obj_hint other;
     p1 ← get_hintParams self; p2 ← obj_hintParams other;
     Ok (mkConstraint c_qfn (Some (h1 ∪ h2)) (Some (dict_update p1 p2))))
    (let c_qfn := λ df,
       a ← qfn self df; b ← obj_qfn other df; np_maximum a b in
     h1 ← get_hint self; h2 ← obj_hint other;
     p1 ← get_hintParams self; p2 ← obj_hintParams other;
     Ok (mkConstraint c_qfn (Some (h1 ∪ h2)) (Some (dict_update p1 p2)))).

(** ** FD *)

(** [float(k - 1) / normalization] *)
Definition py_div (a b : Q) : exc Q :=
  if Qeq_bool b 0 then Raise ZeroDivisionError else Ok (a / b).

(** State of the first loop of [FD._qfn]: the dictionary [kv] and
    [normalization]. The tuples of row [i] are the read number [i]; the
    second loop reads the rows again, as the reads [N], [N + 1], ... *)
Definition FD_loop1 (source target : list string) (df : DataFrame) (i : nat)
    (st : gmap (list value) (gset (list value)) * nat)
    : exc (gmap (list value) (gset (list value)) * nat) :=
  let '(kv, normalization) := st in
  s ← (d ← getitems df source; tuple_iloc i d i);
  t ← (d ← getitems df target; tuple_iloc i d i);
  let kv' := match kv !! s with
             | Some ts => <[s := ts ∪ {[t]}]> kv
             | None => <[s := {[t]}]> kv
             end in
  len ← match kv' !! s with
         | Some ts => Ok (size ts)
         | None => Raise KeyError
         end;
  Ok (kv', len `max` normalization)%nat.

Definition FD_loop2 (source : list string) (df : DataFrame)
    (kv : gmap (list value) (gset (list value))) (normalization : nat)
    (i : nat) (qfn_a : Vec) : exc Vec :=
  s ← (d ← getitems df source; tuple_iloc (nrows df + i) d i);
  ts ← match kv !! s with Some ts => Ok ts | None => Raise KeyError end;
  x ← py_div (inject_Z (Z.of_nat (size ts) - 1)) (inject_Z (Z.of_nat normalization));
  Ok (<[i := x]> qfn_a).

(** [FD._qfn] *)
Definition FD__qfn (source target : list string) (df : DataFrame) : exc Vec :=
  let N := nrows df in
  '(kv, normalization) ← for_range N (FD_loop1 source target df) (∅, 0%nat);
  for_range N (FD_loop2 source df kv normalization) (np_zeros N).

(** [FD(source, target)]: [FD.__init__] sets [source], [target] and
    [hint] and does not call [Constraint.__init__], so the instance has
    no [hintParams]. *)
Definition FD (source target : list string) : Constraint :=
  {| qfn := Constraint_qfn (FD__qfn source target);
     hint := Some (list_to_set (source ++ target));
     hintParams := None |}.

(** [OneToOne(source, target)] *)
Definition OneToOne (source target : list string) : exc Constraint :=
  Constraint_mul (FD source target) (PConstraint (FD target source)).

(** ** Predicate and its specialisations *)

Definition Predicate_loop (attr : string) (expr : value → exc bool)
    (df : DataFrame) (i : nat) (qfn_a : Vec) : exc Vec :=
  val ← (col ← getitem df attr; series_iloc col i);
  if decide (val = VNone) then Ok (<[i := 1 # 100]> qfn_a)
  else
    b ← expr val;
    if (b : bool) then Ok (<[i := 0]> qfn_a) else Ok qfn_a.

(** [Predicate._qfn] *)
Definition Predicate__qfn (attr : string) (expr : value → exc bool)
    (df : DataFrame) : exc Vec :=
  let N := nrows df in
  for_range N (Predicate_loop attr expr df) (np_ones N).

(** [Predicate.__init__], reached from [Predicate(attr, expr)] and from
    the [super().__init__] calls of its subclasses. *)
Definition Predicate_init (attr : string) (expr : value → exc bool)
    (codebook : option (list value)) : Constraint :=
  Constraint_init (Predicate__qfn attr expr) {[attr]} codebook.

Definition Predicate (attr : string) (expr : value → exc bool) : Constraint :=
  Predicate_init attr expr None.

(** [x in codebook]: an element that is [x] itself or equal to it; a NaN
    read from the frame is neither. *)
Definition py_in (x : value) (codebook : list value) : bool :=
  match x with
  | VNaN _ => false
  | _ => bool_decide (x ∈ codebook)
  end.

(** [DictValue(attr, codebook)] with the test [x in codebook] *)
Definition DictValue (attr : string) (codebook : list value) : Constraint :=
  Predicate_init attr (λ x, Ok (py_in x codebook)) (Some codebook).

(** ** Shape *)

(** [Shape._qfn] *)
Definition Shape__qfn (rows columns : nat) (df : DataFrame) : exc Vec :=
  let N := nrows df in
  let qfn_a := np_zeros N in
  if negb (bool_decide (nrows df = rows)) || negb (bool_decide (ncols df = columns))
  then Ok (np_ones N)
  else Ok qfn_a.

(** [Shape(rows, columns)]: neither [hint] nor [hintParams] is set. *)
Definition Shape (rows columns : nat) : Constraint :=
  {| qfn := Constraint_qfn (Shape__qfn rows columns);
     hint := None;
     hintParams := None |}.

(** ** Library functions the constraints call

    [time.strptime], [re.match], [str.strip], [str.lower().split()],
    [distance.levenshtein(_, _, normalized=True)] and the word-vector
    [similarity] are outside the repository. *)

Class Library := {
  py_strip : string → string;
  strptime : string → string → exc unit;
  re_match : string → string → exc bool;
  lower_split : string → list string;
  levenshtein : string → string → Q;
  similarity : string → string → exc Q;
}.

(** What the constraints rely on: a normalised edit distance lies in
    [0,1] and a cosine similarity in [-1,1]. *)
Class LibraryBounds (L : Library) : Prop := {
  levenshtein_range : ∀ a b, 0 <= levenshtein a b <= 1;
  similarity_range : ∀ a b q, similarity a b = Ok q → -1 <= q <= 1;
}.

Section WithLibrary.
Context {L : Library}.

(** [timePatternCheck] of [Date] *)
Definition Date_check (p : string) (x : value) : exc bool :=
  match x with
  | VNone => Ok false
  | VInt _ | VNaN _ => Raise AttributeError
  | VStr s =>
      if decide (String.length (py_strip s) = 0%nat) then Ok false
      else match strptime s p with
           | Ok _ => Ok true
           | Raise ValueError => Ok false
           | Raise e => Raise e
           end
  end.

Definition Date (attr pattern : string) : Constraint :=
  Predicate_init attr (Date_check pattern) None.

(** [timePatternCheck] of [Pattern] *)
Definition Pattern_check (p : string) (x : value) : exc bool :=
  match x with
  | VNone => Ok false
  | VInt _ | VNaN _ => Raise TypeError
  | VStr s =>
      if decide (String.length s = 0%nat) then Ok false
      else try_except (re_match p s) (Ok false)
  end.

Definition Pattern (attr pattern : string) : Constraint :=
  Predicate_init attr (Pattern_check pattern) None.

(** ** CellEdit *)

(** [CellEdit.__init__]: the metric of every column of [source] is
    ['edit'] unless [metric] names another one. *)
Definition CellEdit_metric (source : DataFrame) (metric : gmap string string)
    : gmap string string :=
  dict_update (gset_to_gmap "edit" (list_to_set (columns source))) metric.

(** The pairwise similarities of the [semantic] metric. *)
Definition semantic_sims (ttokens rtokens : gset string) : list Q :=
  t ← elements ttokens;
  r ← elements rtokens;
  [match similarity t r with
   | Ok q => (q + 1) / 2
   | Raise _ => 0
   end].

(** [np.mean] *)
Definition np_mean (v : list Q) : Q := np_sum v / inject_Z (Z.of_nat (length v)).

(** One cell of [CellEdit._qfn]: the body of the loop over [j], with
    the exact quotients and sums; [CellEdit_cell_b64] below is the same
    body with the rounded ones. *)
Definition CellEdit_cell (source : DataFrame) (metric : gmap string string)
    (df : DataFrame) (p : nat) (i j : nat) (qfn_a : Vec) : exc Vec :=
  let pq := inject_Z (Z.of_nat p) in
  let add (d : Q) : exc Vec :=
    x ← py_div d pq;
    old ← np_getitem qfn_a i;
    Ok (<[i := x + old]> qfn_a) in
  v ← iloc df i j;
  let target := py_str v in
  r ← iloc source i j;
  let ref := py_str r in
  cname ← match columns source !! j with
           | Some c => Ok c
           | None => Raise IndexError
           end;
  if decide (target = ref) then Ok qfn_a
  else if decide (v = VNone) then Ok qfn_a
  else if bool_decide (target = EmptyString) && negb (bool_decide (ref = target)) then add 1
  else if bool_decide (ref = EmptyString) && negb (bool_decide (ref = target)) then add 1
  else
    let ttokens : gset string := list_to_set (lower_split target) in
    let rtokens : gset string := list_to_set (lower_split ref) in
    m ← match metric !! cname with
         | Some m => Ok m
         | None => Raise KeyError
         end;
    if decide (m = "edit") then add (levenshtein target ref)
    else if decide (m = "jaccard") then
      jac ← py_div (inject_Z (Z.of_nat (size (ttokens ∩ rtokens))))
                   (inject_Z (Z.of_nat (size (ttokens ∪ rtokens))));
      add (1 - jac)
    else if decide (m = "semantic") then
      let sim := semantic_sims ttokens rtokens in
      if decide (0 < length sim)%nat then add (1 - np_mean sim)
      else add 1
    else Ok qfn_a.

(** [CellEdit._qfn] *)
Definition CellEdit__qfn (source : DataFrame) (metric : gmap string string)
    (df : DataFrame) : exc Vec :=
  let N := nrows df in
  let p := ncols df in
  let qfn_a := np_zeros N in
  if negb (bool_decide ((nrows source, ncols source) = (nrows df, ncols df)))
  then Ok (np_ones N)
  else
    for_range N (λ i, for_range p (CellEdit_cell source metric df p i)) qfn_a.

(** [CellEdit(source, metric)]: neither [hint] nor [hintParams] is set. *)
Definition CellEdit (source : DataFrame) (metric : gmap string string) : Constraint :=
  {| qfn := Constraint_qfn (CellEdit__qfn source (CellEdit_metric source metric));
     hint := None;
     hintParams := None |}.

End WithLibrary.

(** ** CellEdit over binary64

    [CellEdit._qfn] once more, with the numbers the code has: every
    division and addition is the IEEE 754 binary64 operation. The two
    distances and [np.mean] are library functions with binary64
    results. *)

Class Library64 := {
  levenshtein64 : string → string → float;
  similarity64 : string → string → exc float;
  np_mean64 : list float → float;
}.

(** [float(n)] for a count [n] *)
Definition float_of_nat (n : nat) : float :=
  PrimFloat.of_uint63 (Uint63.of_Z (Z.of_nat n)).

(** [a / b] on Python floats *)
Definition py_div_b64 (a b : float) : exc float :=
  if PrimFloat.eqb b 0 then Raise ZeroDivisionError
  else Ok (PrimFloat.div a b).

Definition np_getitem_b64 (a : list float) (i : nat) : exc float :=
  match a !! i with Some x => Ok x | None => Raise IndexError end.

Definition np_ones_b64 (n : nat) : list float := replicate n 1%float.
Definition np_zeros_b64 (n : nat) : list float := replicate n 0%float.

Section WithLibrary64.
Context {L : Library} {L64 : Library64}.

Definition semantic_sims_b64 (ttokens rtokens : gset string) : list float :=
  t ← elements ttokens;
  r ← elements rtokens;
  [match similarity64 t r with
   | Ok q => PrimFloat.div (PrimFloat.add q 1) 2
   | Raise _ => 0%float
   end].

(** One cell of [CellEdit._qfn]: the body of the loop over [j]. *)
Definition CellEdit_cell_b64 (source : DataFrame) (metric : gmap string string)
    (df : DataFrame) (p : nat) (i j : nat) (qfn_a : list float)
    : exc (list float) :=
  let pq := float_of_nat p in
  let add (d : float) : exc (list float) :=
    x ← py_div_b64 d pq;
    old ← np_getitem_b64 qfn_a i;
    Ok (<[i := PrimFloat.add x old]> qfn_a) in
  v ← iloc df i j;
  let target := py_str v in
  r ← iloc source i j;
  let ref := py_str r in
  cname ← match columns source !! j with
           | Some c => Ok c
           | None => Raise IndexError
           end;
  if decide (target = ref) then Ok qfn_a
  else if decide (v = VNone) then Ok qfn_a
  else if bool_decide (target = EmptyString) && negb (bool_decide (ref = target)) then add 1%float
  else if bool_decide (ref = EmptyString) && negb (bool_decide (ref = target)) then add 1%float
  else
    let ttokens : gset string := list_to_set (lower_split target) in
    let rtokens : gset string := list_to_set (lower_split ref) in
    m ← match metric !! cname with
         | Some m => Ok m
         | None => Raise KeyError
         end;
    if decide (m = "edit") then add (levenshtein64 target ref)
    else if decide (m = "jaccard") then
      jac ← py_div_b64 (float_of_nat (size (ttokens ∩ rtokens)))
                       (float_of_nat (size (ttokens ∪ rtokens)));
      add (PrimFloat.sub 1 jac)
    else if decide (m = "semantic") then
      let sim := semantic_sims_b64 ttokens rtokens in
      if decide (0 < length sim)%nat then add (PrimFloat.sub 1 (np_mean64 sim))
      else add 1%float
    else Ok qfn_a.

(** [CellEdit._qfn] *)
Definition CellEdit__qfn_b64 (source : DataFrame) (metric : gmap string string)
    (df : DataFrame) : exc (list float) :=
  let N := nrows df in
  let p := ncols df in
  let qfn_a := np_zeros_b64 N in
  if negb (bool_decide ((nrows source, ncols source) = (nrows df, ncols df)))
  then Ok (np_ones_b64 N)
  else
    for_range N (λ i, for_range p (CellEdit_cell_b64 source metric df p i)) qfn_a.

(** [CellEdit(source, metric).qfn]: [Constraint.qfn] around the above. *)
Definition CellEdit_qfn_b64 (source : DataFrame) (metric : gmap string string)
    (df : DataFrame) : exc (list float) :=
  try_except (CellEdit__qfn_b64 source (CellEdit_metric source metric) df)
    (let N := nrows df in Ok (np_ones_b64 N)).

End WithLibrary64.

(** ** The search

    The module [generators] is not embedded: operations, their
    composition, [NOOP] and the [ParameterSampler] are an interface.
    [run] is a function of the frame it is given; the sampler may draw
    at random, which the round number it receives stands for. [hash_str]
    is [hash(str(df.values))].

    [search.py] has every name it uses from [from generators import *],
    the name [CellEdit] included: [generators_CellEdit] is the callable
    that module binds to it, called with a frame, the similarity
    dictionary and the word-vector model, and the object it returns
    answers [.qfn]. It is an interface of its own, [Fidelity], since
    the loop of [treeSearch] never refers to it. *)

Class Generators := {
  Operation : Type;
  OperationKind : Type;
  op_name : Operation → string;
  op_depth : Operation → Q;
  op_run : Operation → DataFrame → exc DataFrame;
  op_mul : Operation → Operation → Operation;
  NOOP : Operation;
  getAllOperations :
    nat → DataFrame → Constraint → list OperationKind → list Operation;
  hash_str : DataFrame → Z;
}.

Class Fidelity := {
  Word2Vec : Type;
  generators_CellEdit :
    DataFrame → gmap string string → Word2Vec → exc Constraint;
}.

(** [x < y] on floats *)
Definition Qltb (x y : Q) : bool := negb (Qle_bool y x).

(** [pruningRules] *)
Definition pruningRules (output : DataFrame) : bool :=
  if decide (ncols output = 0%nat) then true
  else if decide (nrows output = 0%nat) then true
  else false.

Section Search.
Context {G : Generators} {F : Fidelity}.

(** The variables of [treeSearch]. [scored] and [skipped] are not in the
    program: [scored] records, oldest first, each table line 185 gave a
    score together with that score, [skipped] counts the rounds left at
    line 153. *)
Record SearchState := mkSearchState {
  best : Q * Operation * DataFrame;
  branch_hash : gset Z;
  bad_op_cache : gset string;
  scored : list (DataFrame * Q);
  skipped : nat;
}.

Definition best_value (st : SearchState) : Q := (best st).1.1.
Definition best_op (st : SearchState) : Operation := (best st).1.2.
Definition best_frame (st : SearchState) : DataFrame := (best st).2.

(** [n] of line 185; the divisor is not zero where the line is reached. *)
Definition combined_score (costFn : Constraint) (efn : DataFrame → exc Vec)
    (editCost : Q) (output : DataFrame) : exc Q :=
  costEval ← qfn costFn output;
  e ← efn output;
  py_div (np_sum costEval + editCost * np_sum e) (inject_Z (Z.of_nat (nrows output))).

(** The body of the loop over the sampled operations; [op] and [frame]
    are those unpacked at the top of the round. *)
Definition treeSearch_branch (costFn : Constraint) (efn : DataFrame → exc Vec)
    (editCost : Q) (op : Operation) (frame : DataFrame)
    (opbranch : Operation) (st : SearchState) : exc SearchState :=
  if decide (op_name opbranch ∈ bad_op_cache st) then Ok st
  else
    let nextop := op_mul op opbranch in
    match op_run opbranch frame with
    | Raise _ =>
        Ok (mkSearchState (best st) (branch_hash st)
              (bad_op_cache st ∪ {[op_name opbranch]}) (scored st) (skipped st))
    | Ok output =>
        if pruningRules output then Ok st
        else
          n ← combined_score costFn efn editCost output;
          let best' := if Qltb n (best_value st) then (n, nextop, output)
                       else best st in
          Ok (mkSearchState best' (branch_hash st) (bad_op_cache st)
                (scored st ++ [(output, n)]) (skipped st))
    end.

(** The test of line 152 *)
Definition prune_by_inflation (inflation : Q) (st : SearchState) : bool :=
  let '(value, op, frame) := best st in
  Qltb (best_value st * inflation) (value - op_depth op).

(** One round of the loop over [range(evaluations)] *)
Definition treeSearch_round (costFn : Constraint) (efn : DataFrame → exc Vec)
    (operations : list OperationKind) (inflation editCost : Q)
    (i : nat) (st : SearchState) : exc SearchState :=
  let '(value, op, frame) := best st in
  if prune_by_inflation inflation st then
    Ok (mkSearchState (best st) (branch_hash st) (bad_op_cache st)
          (scored st) (S (skipped st)))
  else
    let bfs_source := frame in
    let p := getAllOperations i bfs_source costFn operations in
    costEval ← qfn costFn bfs_source;
    for_each p (treeSearch_branch costFn efn editCost op frame) st.

(** Lines 139 to 145 *)
Definition treeSearch_init (df : DataFrame) : SearchState :=
  mkSearchState (2, NOOP, df) (∅ ∪ {[hash_str df]}) ∅ [] 0.

(** Lines 139 to 188: the state the loop ends in, given [efn]. *)
Definition treeSearch_run (efn : DataFrame → exc Vec) (df : DataFrame)
    (costFn : Constraint) (operations : list OperationKind)
    (evaluations : nat) (inflation editCost : Q) : exc SearchState :=
  for_range evaluations
    (treeSearch_round costFn efn operations inflation editCost)
    (treeSearch_init df).

(** Lines 139 to 190 *)
Definition treeSearch_from (efn : DataFrame → exc Vec) (df : DataFrame)
    (costFn : Constraint) (operations : list OperationKind)
    (evaluations : nat) (inflation editCost : Q)
    : exc (Operation * DataFrame) :=
  st ← treeSearch_run efn df costFn operations evaluations inflation editCost;
  Ok (best_op st, best_frame st).

(** [treeSearch]; [df.copy()] is [df], frames being values. *)
Definition treeSearch (df : DataFrame) (costFn : Constraint)
    (operations : list OperationKind) (evaluations : nat)
    (inflation editCost : Q) (similarity : gmap string string)
    (word2vec : Word2Vec) : exc (Operation * DataFrame) :=
  ce ← generators_CellEdit df similarity word2vec;
  treeSearch_from (qfn ce) df costFn operations evaluations inflation editCost.

(** The value [best] holds after the candidates [sc] were scored in
    this order: line 139 followed by line 187 for each of them. *)
Definition running_best (sc : list (DataFrame * Q)) : Q :=
  fold_left (λ b c, if Qltb c.2 b then c.2 else b) sc 2.

(** No candidate of [sc] scored strictly below the value [best] held
    when it was scored. *)
Definition never_improved (sc : list (DataFrame * Q)) : Prop :=
  ∀ k output n,
    sc !! k = Some (output, n) → ¬ n < running_best (take k sc).

End Search.

(** A score: a number between 0 and 1. *)
Definition unit_interval (x : Q) : Prop := 0 <= x <= 1.

(** The objects of class [CellEdit]. *)
Definition is_CellEdit {L : Library} (c : Constraint) : Prop :=
  ∃ source metric, c = CellEdit source metric.

(** ** The objects the constructors and operators of the module produce *)

Inductive constraint_object {L : Library} : Constraint → Prop :=
  | obj_Constraint : constraint_object Constraint_new
  | obj_FD source target : constraint_object (FD source target)
  | obj_Predicate attr expr : constraint_object (Predicate attr expr)
  | obj_DictValue attr codebook : constraint_object (DictValue attr codebook)
  | obj_Date attr pattern : constraint_object (Date attr pattern)
  | obj_Pattern attr pattern : constraint_object (Pattern attr pattern)
  | obj_Shape rows cols : constraint_object (Shape rows cols)
  | obj_CellEdit source metric : constraint_object (CellEdit source metric)
  | obj_add a b c :
      constraint_object a → constraint_object b →
      Constraint_add a (PConstraint b) = Ok c → constraint_object c
  | obj_add_float a w c :
      constraint_object a →
      Constraint_add a (PFloat w) = Ok c → constraint_object c
  | obj_mul a b c :
      constraint_object a → constraint_object b →
      Constraint_mul a (PConstraint b) = Ok c → constraint_object c
  | obj_mul_float a w c :
      constraint_object a →
      Constraint_mul a (PFloat w) = Ok c → constraint_object c.

(** What a quality vector of [df] is. *)
Definition quality_vector (df : DataFrame) (v : Vec) : Prop :=
  length v = nrows df ∧ Forall unit_interval v.

(** Every set stored in [kv] is inhabited and no larger than
    [normalization]. *)
Definition FD_sizes (st : gmap (list value) (gset (list value)) * nat) : Prop :=
  ∀ s ts, st.1 !! s = Some ts → (1 ≤ size ts ≤ st.2)%nat.

(** While [CellEdit._qfn] is at row [i]: the rows above hold scores,
    row [i] holds at most [b], the rows below are still zero. *)
Definition row_bound (N i : nat) (b : Q) (v : Vec) : Prop :=
  length v = N ∧
  ∀ k x, v !! k = Some x →
    ((k < i)%nat → unit_interval x) ∧
    (k = i → 0 <= x <= b) ∧
    ((i < k)%nat → x == 0).

(** ** Example data

    A stand-in for the library functions, and small frames, on which the
    definitions above are run. *)

Definition stub_library : Library := {|
  py_strip := id;
  strptime := λ _ _, Raise ValueError;
  re_match := λ _ _, Ok false;
  lower_split := λ s, [s];
  levenshtein := λ a b, if decide (a = b) then 0 else 1;
  similarity := λ _ _, Raise KeyError;
|}.

Definition cities : DataFrame :=
  mkDataFrame ["city"; "state"]
    [ [VStr "NYC"; VStr "NY"];
      [VStr "NYC"; VStr "NJ"];
      [VStr "SF"; VStr "CA"];
      [VStr "NYC"; VStr "NY"] ].

(** No cell of these rows is a NaN. *)
Definition is_nan (v : value) : bool :=
  match v with VNaN _ => true | _ => false end.

Definition nan_free (rows : list (list value)) : Prop :=
  Forall (Forall (λ v, is_nan v = false)) rows.

(** The tuples the first loop of [FD._qfn] reads from these rows: row
    [i] is the read number [i]. *)
Definition boxed_rows (rows : list (list value)) : list (list value) :=
  imap box rows.

(** A row of nine cells, and the same row with every cell emptied. *)
Definition nine : DataFrame :=
  mkDataFrame ["a"; "b"; "c"; "d"; "e"; "f"; "g"; "h"; "i"]
    [replicate 9 (VStr "x")].

Definition nine_blank : DataFrame :=
  mkDataFrame ["a"; "b"; "c"; "d"; "e"; "f"; "g"; "h"; "i"]
    [replicate 9 (VStr EmptyString)].

Definition stub_library64 : Library64 := {|
  levenshtein64 := λ a b, if decide (a = b) then 0%float else 1%float;
  similarity64 := λ _ _, Raise KeyError;
  np_mean64 := λ _, 0%float;
|}.

(** A frame whose column [sensor] is a float column without a reading. *)
Definition readings : DataFrame :=
  mkDataFrame ["sensor"; "unit"]
    [[VNaN 0; VStr "C"];
     [VNaN 1; VStr "C"]].

(** ** The FD score in the words of the specification

    The rows are given as pairs of a source tuple and a target tuple.
    [distinct_targets] is the number [k] of distinct target tuples that
    occur with a source tuple, [worst_group] the largest such number
    [m] over the rows, and a row scores [(k - 1) / m]. *)

Definition targets_with (pairs : list (list value * list value))
    (s : list value) : list (list value) :=
  (filter (λ p, p.1 = s) pairs).*2.

Definition distinct_targets (pairs : list (list value * list value))
    (s : list value) : nat :=
  length (remove_dups (targets_with pairs s)).

Definition worst_group (pairs : list (list value * list value)) : nat :=
  max_list ((λ p, distinct_targets pairs p.1) <$> pairs).

Definition FD_score (pairs : list (list value * list value))
    (s : list value) : Q :=
  inject_Z (Z.of_nat (distinct_targets pairs s) - 1) /
  inject_Z (Z.of_nat (worst_group pairs)).

Definition FD_scores (pairs : list (list value * list value)) : Vec :=
  (λ p, FD_score pairs p.1) <$> pairs.

(** The first loop of [FD._qfn] after the rows [pre]: [kv] maps the
    source tuples seen to the set of their targets, and [normalization]
    is the size of a largest of these sets. *)
Definition FD_inv (pre : list (list value * list value))
    (st : gmap (list value) (gset (list value)) * nat) : Prop :=
  (∀ s ts, st.1 !! s = Some ts →
     ts = list_to_set (targets_with pre s) ∧ ∃ t, (s, t) ∈ pre) ∧
  (∀ p, p ∈ pre → is_Some (st.1 !! p.1)) ∧
  (∀ s ts, st.1 !! s = Some ts → (size ts ≤ st.2)%nat) ∧
  (st.2 = 0%nat ∨ ∃ s ts, st.1 !! s = Some ts ∧ size ts = st.2).

(** Toy operations, to run the search on: keep the frame, drop its last
    row, fail, or do one after the other. The sampler proposes the
    operations it is configured with and the hash is the row count. *)

Inductive toy_op :=
  | ToyNoop
  | ToyKeep
  | ToyDropLast
  | ToyFail
  | ToySeq (a b : toy_op).

Fixpoint toy_name (o : toy_op) : string :=
  match o with
  | ToyNoop => "noop"
  | ToyKeep => "keep"
  | ToyDropLast => "droplast"
  | ToyFail => "fail"
  | ToySeq a b => toy_name a +:+ "*" +:+ toy_name b
  end.

Fixpoint toy_depth (o : toy_op) : Q :=
  match o with
  | ToyNoop => 0
  | ToySeq a b => toy_depth a + toy_depth b
  | _ => 1
  end.

Fixpoint toy_run (o : toy_op) (df : DataFrame) : exc DataFrame :=
  match o with
  | ToyNoop | ToyKeep => Ok df
  | ToyDropLast =>
      Ok (mkDataFrame (columns df) (take (pred (nrows df)) (values df)))
  | ToyFail => Raise ValueError
  | ToySeq a b => df' ← toy_run a df; toy_run b df'
  end.

Definition toy_generators : Generators := {|
  Operation := toy_op;
  OperationKind := toy_op;
  op_name := toy_name;
  op_depth := toy_depth;
  op_run := toy_run;
  op_mul := ToySeq;
  NOOP := ToyNoop;
  getAllOperations := λ _ _ _ kinds, kinds;
  hash_str := λ df, Z.of_nat (nrows df);
|}.

(** A binding of the name [CellEdit] to run [treeSearch] with: the
    [CellEdit] above on the frame and the dictionary, the model being
    left aside. *)
Definition toy_fidelity : Fidelity := {|
  Word2Vec := unit;
  generators_CellEdit := λ source metric _,
    Ok (CellEdit (L := stub_library) source metric);
|}.

(** A rule no value satisfies. *)
Definition never : Constraint := Predicate "city" (λ _, Ok false).

(** ** Further notions the properties below are stated with *)

(** The score [Predicate._qfn] leaves in a row whose value is [v], for a
    test that answers [f v]. *)
Definition Predicate_score (f : value → bool) (v : value) : Q :=
  if decide (v = VNone) then 1 # 100
  else if f v then 0 else 1.

(** Every row of the frame has one cell per column. *)
Definition rectangular (df : DataFrame) : Prop :=
  Forall (λ row, length row = ncols df) (values df).

(** Row [i] of the candidate [df] shows, in every cell, the text of the
    reference or no value at all. *)
Definition row_untouched (source df : DataFrame) (i : nat) : Prop :=
  ∀ j v r, iloc df i j = Ok v → iloc source i j = Ok r →
           py_str v = py_str r ∨ v = VNone.

(** A frame with a number and a missing value. *)
Definition people : DataFrame :=
  mkDataFrame ["name"; "age"]
    [ [VStr "ann"; VInt 31];
      [VStr "bob"; VNone];
      [VStr "cy"; VStr "40"] ].

(** [cities] after a repair of the second row and the loss of a value in
    the third. *)
Definition cities_edited : DataFrame :=
  mkDataFrame ["city"; "state"]
    [ [VStr "NYC"; VStr "NY"];
      [VStr "NYC"; VStr "NY"];
      [VStr "SF"; VNone];
      [VStr "NYC"; VStr "NY"] ].

(** * Properties *)

(** ** The error monad and the loops *)

Lemma bind_Ok {A B} (m : exc A) (f : A → exc B) (b : B) :
  m ≫= f = Ok b → ∃ a, m = Ok a ∧ f a = Ok b.
Proof. destruct m as [a|e]; [eauto | discriminate]. Qed.

Ltac inv_bind H :=
  let a := fresh "a" in
  let Ha := fresh "Ha" in
  apply bind_Ok in H as (a & Ha & H).

Lemma for_each_app {X S} (xs ys : list X) (body : X → S → exc S) (s : S) :
  for_each (xs ++ ys) body s = (s' ← for_each xs body s; for_each ys body s').
Proof.
  revert s. induction xs as [|x xs IH]; intros s; simpl; [done|].
  destruct (body x s) as [s'|e]; simpl; [apply IH | done].
Qed.

(** An invariant that every iteration preserves holds at the end. *)
Lemma for_each_inv {X S} (P : S → Prop) (xs : list X) (body : X → S → exc S) s r :
  P s →
  (∀ x s s', x ∈ xs → P s → body x s = Ok s' → P s') →
  for_each xs body s = Ok r → P r.
Proof.
  revert s. induction xs as [|x xs IH]; intros s Hs Hstep Hrun; simpl in Hrun.
  - by inversion Hrun; subst.
  - inv_bind Hrun. apply (IH a); [|set_solver|done].
    apply (Hstep x s); [set_solver|done..].
Qed.

(** The same with the invariant indexed by the iteration count. *)
Lemma for_seq_inv {St} (P : nat → St → Prop) (a n : nat) (body : nat → St → exc St) s r :
  P a s →
  (∀ i s s', (a ≤ i < a + n)%nat → P i s → body i s = Ok s' → P (S i) s') →
  for_each (seq a n) body s = Ok r → P (a + n)%nat r.
Proof.
  revert a s. induction n as [|n IH]; intros a s Hs Hstep Hrun; simpl in Hrun.
  - inversion Hrun; subst. by rewrite Nat.add_0_r.
  - inv_bind Hrun. replace (a + S n)%nat with (S a + n)%nat by lia.
    apply (IH (S a) a0); [|intros; eapply Hstep; [lia|done..]|done].
    apply (Hstep a s); [lia|done..].
Qed.

Lemma for_range_inv {St} (P : nat → St → Prop) (n : nat) (body : nat → St → exc St) s r :
  P 0%nat s →
  (∀ i s s', (i < n)%nat → P i s → body i s = Ok s' → P (S i) s') →
  for_range n body s = Ok r → P n r.
Proof.
  intros Hs Hstep Hrun. apply (for_seq_inv P 0 n body s r); [done| |done].
  intros i ?? [_ Hi]. by apply Hstep.
Qed.

(** A loop whose iterations cannot raise ends. *)
Lemma for_each_total {X S} (P : S → Prop) (xs : list X) (body : X → S → exc S) s :
  P s →
  (∀ x s, x ∈ xs → P s → ∃ s', body x s = Ok s' ∧ P s') →
  ∃ r, for_each xs body s = Ok r ∧ P r.
Proof.
  revert s. induction xs as [|x xs IH]; intros s Hs Hstep; simpl; [eauto|].
  destruct (Hstep x s) as (s' & -> & Hs'); [set_solver|done|]. simpl.
  apply IH; [done|]. intros; apply Hstep; [set_solver|done].
Qed.

(** ** Vectors *)

Lemma np_ones_length n : length (np_ones n) = n.
Proof. apply length_replicate. Qed.

Lemma np_zeros_length n : length (np_zeros n) = n.
Proof. apply length_replicate. Qed.

Lemma np_ones_unit n : Forall unit_interval (np_ones n).
Proof. apply Forall_replicate. split; lra. Qed.

Lemma np_zeros_unit n : Forall unit_interval (np_zeros n).
Proof. apply Forall_replicate. split; lra. Qed.

Lemma np_zip_same f (a b : Vec) :
  length a = length b → np_zip f a b = Ok (zip_with f a b).
Proof. intros Hl. unfold np_zip. by rewrite decide_True. Qed.

(** ** The operators [+] and [*] *)

Lemma Constraint_add_Ok self other c :
  Constraint_add self other = Ok c →
  ∃ h1 h2 p1 p2,
    hint self = Some h1 ∧ obj_hint other = Ok h2 ∧
    hintParams self = Some p1 ∧ obj_hintParams other = Ok p2 ∧
    hint c = Some (h1 ∪ h2) ∧ hintParams c = Some (dict_update p1 p2) ∧
    qfn c = (λ df, a ← qfn self df; b ← obj_qfn other df;
                   s ← np_add a b; Ok (np_div s 2)).
Proof.
  unfold Constraint_add, get_hint, get_hintParams. intros H.
  destruct (hint self) as [h1|]; [|done].
  destruct (obj_hint other) as [h2|]; [|done].
  destruct (hintParams self) as [p1|]; [|done].
  destruct (obj_hintParams other) as [p2|]; [|done].
  simpl in H. inversion H; subst. by exists h1, h2, p1, p2.
Qed.

(** With a constraint on the right [float(other)] raises and the handler
    builds the elementwise maximum. *)
Lemma Constraint_mul_constraint_Ok self b c :
  Constraint_mul self (PConstraint b) = Ok c →
  ∃ h1 h2 p1 p2,
    hint self = Some h1 ∧ hint b = Some h2 ∧
    hintParams self = Some p1 ∧ hintParams b = Some p2 ∧
    hint c = Some (h1 ∪ h2) ∧ hintParams c = Some (dict_update p1 p2) ∧
    qfn c = (λ df, x ← qfn self df; y ← qfn b df; np_maximum x y).
Proof.
  unfold Constraint_mul, get_hint, get_hintParams. simpl.
  unfold get_hint, get_hintParams. intros H.
  destruct (hint self) as [h1|]; [|done].
  destruct (hint b) as [h2|]; [|done].
  destruct (hintParams self) as [p1|]; [|done].
  destruct (hintParams b) as [p2|]; [|done].
  simpl in H. inversion H; subst. by exists h1, h2, p1, p2.
Qed.

Lemma Constraint_mul_constraint_max self b h1 h2 p1 p2 :
  hint self = Some h1 → hint b = Some h2 →
  hintParams self = Some p1 → hintParams b = Some p2 →
  ∃ c, Constraint_mul self (PConstraint b) = Ok c ∧
       ∀ df x y, qfn self df = Ok x → qfn b df = Ok y →
                 length x = length y →
                 qfn c df = Ok (zip_with Qmax x y).
Proof.
  intros Hh1 Hh2 Hp1 Hp2. unfold Constraint_mul. simpl.
  unfold get_hint, get_hintParams. rewrite Hh1, Hh2, Hp1, Hp2. simpl.
  eexists; split; [done|]. intros df x y Hx Hy Hl. simpl.
  rewrite Hx, Hy. simpl. by apply np_zip_same.
Qed.

(** A number has neither [hint] nor [hintParams]: both branches of
    [__mul__] stop at [other.hint]. *)
Lemma Constraint_mul_float self w c : Constraint_mul self (PFloat w) ≠ Ok c.
Proof.
  unfold Constraint_mul, get_hint. simpl. by destruct (hint self).
Qed.

(** C6 (the code departs from it). [a * w] with a number [w]: the first
    branch converts [w] and then reads [w.hint], which a number does not
    have; the handler of the bare [except] reads [w.hint] again, outside
    any [try]. The product is never built: the call raises
    [AttributeError], whatever the constraint and the number. *)
Theorem Constraint_mul_scalar_raises (self : Constraint) (w : Q) :
  Constraint_mul self (PFloat w) = Raise AttributeError.
Proof.
  unfold Constraint_mul, get_hint. simpl.
  destruct (hint self); reflexivity.
Qed.

(** C3 (the code departs from it). [FD.__init__] never sets
    [hintParams], so [FD(s, t) * FD(t, s)] fails when the handler of
    [__mul__] copies [self.hintParams]: [OneToOne] raises
    [AttributeError] for every pair of column lists. *)
Theorem OneToOne_raises (source target : list string) :
  OneToOne source target = Raise AttributeError.
Proof. reflexivity. Qed.

(** C5 as stated fails: two [DictValue] constraints both carry the key
    ["codebook"], and their sum keeps the value of the right operand. *)
Lemma Constraint_add_left_not_kept :
  ¬ (∀ (a b c : Constraint) pa pb pc k va vb,
       Constraint_add a (PConstraint b) = Ok c →
       hintParams a = Some pa → hintParams b = Some pb →
       hintParams c = Some pc →
       pa !! k = Some va → pb !! k = Some vb → pc !! k = Some va).
Proof.
  intros H.
  specialize (H (DictValue "city" [VStr "NYC"]) (DictValue "state" [VStr "NY"])
                _ _ _ _ "codebook" [VStr "NYC"] [VStr "NY"]
                eq_refl eq_refl eq_refl eq_refl).
  unfold dict_update in H. rewrite lookup_union_l' in H.
  - rewrite !lookup_singleton_eq in H. by specialize (H eq_refl eq_refl).
  - by rewrite lookup_singleton_eq.
Qed.

(** ** Every quality function returns one score per row *)

Lemma quality_ones df : quality_vector df (np_ones (nrows df)).
Proof. split; [apply np_ones_length | apply np_ones_unit]. Qed.

Lemma quality_zeros df : quality_vector df (np_zeros (nrows df)).
Proof. split; [apply np_zeros_length | apply np_zeros_unit]. Qed.

Lemma quality_insert df v i x :
  quality_vector df v → unit_interval x → quality_vector df (<[i := x]> v).
Proof.
  intros [Hl Hv] Hx. split; [by rewrite length_insert | by apply Forall_insert].
Qed.

(** [Constraint.qfn] turns a [_qfn] that is right whenever it returns
    into a total quality function. *)
Lemma Constraint_qfn_quality _qfn df :
  (∀ v, _qfn df = Ok v → quality_vector df v) →
  ∃ v, Constraint_qfn _qfn df = Ok v ∧ quality_vector df v.
Proof.
  intros H. unfold Constraint_qfn, try_except.
  destruct (_qfn df) as [v|e]; [eauto | eauto using quality_ones].
Qed.

Lemma py_div_Ok a b q : py_div a b = Ok q → ¬ b == 0 ∧ q = a / b.
Proof.
  unfold py_div. destruct (Qeq_bool b 0) eqn:Hb; [done|].
  intros [= <-]. split; [|done]. by apply Qeq_bool_neq.
Qed.

Lemma ratio_unit (k m : nat) :
  (1 ≤ k ≤ m)%nat →
  unit_interval (inject_Z (Z.of_nat k - 1) / inject_Z (Z.of_nat m)).
Proof.
  intros [Hk Hm].
  assert (0 < inject_Z (Z.of_nat m)) as Hpos.
  { change 0 with (inject_Z 0). rewrite <- Zlt_Qlt. lia. }
  split.
  - apply Qle_shift_div_l; [done|]. rewrite Qmult_0_l.
    change 0 with (inject_Z 0). rewrite <- Zle_Qle. lia.
  - apply Qle_shift_div_r; [done|]. rewrite Qmult_1_l.
    rewrite <- Zle_Qle. lia.
Qed.

Lemma FD_loop1_sizes source target df i st st' :
  FD_sizes st → FD_loop1 source target df i st = Ok st' → FD_sizes st'.
Proof.
  destruct st as [kv norm]. unfold FD_loop1. intros Hinv H.
  apply bind_Ok in H as (s & _ & H). apply bind_Ok in H as (t & _ & H).
  set (kv' := match kv !! s with
              | Some ts => <[s:=ts ∪ {[t]}]> kv
              | None => <[s:={[t]}]> kv
              end) in *.
  assert (∃ new, kv' = <[s := new]> kv ∧ (1 ≤ size new)%nat ∧
                 ∀ ts, kv !! s = Some ts → (size ts ≤ size new)%nat)
    as (new & Hkv' & Hnew & Hgrow).
  { subst kv'. destruct (kv !! s) as [ts|] eqn:Hs.
    - exists (ts ∪ {[t]}). split; [done|]. split.
      + rewrite <- (size_singleton (C := gset (list value)) t).
        apply subseteq_size. set_solver.
      + intros ? [= <-]. apply subseteq_size. set_solver.
    - exists {[t]}. rewrite size_singleton. split; [done|]. split; [lia|done]. }
  rewrite Hkv', lookup_insert_eq in H. simpl in H. inversion H; subst st'.
  intros s' ts'. simpl. rewrite lookup_insert. case_decide as Hs'.
  - intros [= <-]. lia.
  - intros Hl. destruct (Hinv s' ts' Hl) as [? ?]. simpl in *. lia.
Qed.

Lemma FD__qfn_quality source target df v :
  FD__qfn source target df = Ok v → quality_vector df v.
Proof.
  unfold FD__qfn. intros H. apply bind_Ok in H as ([kv norm] & H1 & H2).
  assert (FD_sizes (kv, norm)) as Hsz.
  { revert H1. apply (for_each_inv FD_sizes).
    - intros s ts. simpl. by rewrite lookup_empty.
    - intros i st st' _. apply FD_loop1_sizes. }
  revert H2. apply (for_each_inv (quality_vector df)); [apply quality_zeros|].
  intros i qfn_a qfn_a' _ Hq Hstep. unfold FD_loop2 in Hstep.
  apply bind_Ok in Hstep as (s & _ & Hstep).
  apply bind_Ok in Hstep as (ts & Hts & Hstep).
  apply bind_Ok in Hstep as (x & Hx & Hstep). inversion Hstep; subst.
  apply quality_insert; [done|].
  apply py_div_Ok in Hx as [_ ->]. apply ratio_unit.
  destruct (kv !! s) as [ts'|] eqn:Hs; [|done]. inversion Hts; subst.
  apply (Hsz s ts Hs).
Qed.

Lemma Predicate__qfn_quality attr expr df v :
  Predicate__qfn attr expr df = Ok v → quality_vector df v.
Proof.
  unfold Predicate__qfn.
  apply (for_each_inv (quality_vector df)); [apply quality_ones|].
  intros i qfn_a qfn_a' _ Hq Hstep. unfold Predicate_loop in Hstep.
  apply bind_Ok in Hstep as (val & _ & Hstep).
  case_decide.
  - inversion Hstep; subst. apply quality_insert; [done|].
    split; unfold Qle; simpl; lia.
  - apply bind_Ok in Hstep as ([] & _ & Hstep); inversion Hstep; subst; [|done].
    apply quality_insert; [done|]. split; lra.
Qed.

Lemma Shape__qfn_quality rows cols df v :
  Shape__qfn rows cols df = Ok v → quality_vector df v.
Proof.
  unfold Shape__qfn.
  destruct (_ || _); intros [= <-]; [apply quality_ones | apply quality_zeros].
Qed.

Lemma np_sum_bounds (l : list Q) :
  Forall unit_interval l → 0 <= np_sum l <= inject_Z (Z.of_nat (length l)).
Proof.
  induction 1 as [|x l [Hx0 Hx1] _ IH]; simpl.
  - split; apply Qle_refl.
  - rewrite Nat2Z.inj_succ, <- Z.add_1_r, inject_Z_plus.
    change (inject_Z 1) with 1. lra.
Qed.

Lemma np_mean_unit (l : list Q) :
  Forall unit_interval l → (0 < length l)%nat → unit_interval (np_mean l).
Proof.
  intros Hl Hlen. destruct (np_sum_bounds l Hl) as [H0 H1]. unfold np_mean.
  assert (0 < inject_Z (Z.of_nat (length l))) as Hpos.
  { change 0 with (inject_Z 0). rewrite <- Zlt_Qlt. lia. }
  split.
  - apply Qle_shift_div_l; [done|]. by rewrite Qmult_0_l.
  - apply Qle_shift_div_r; [done|]. by rewrite Qmult_1_l.
Qed.

Section LibraryFacts.
Context {L : Library} {LB : LibraryBounds L}.

Lemma semantic_sims_unit ttokens rtokens :
  Forall unit_interval (semantic_sims ttokens rtokens).
Proof.
  unfold semantic_sims. apply Forall_forall. intros x Hx.
  apply list_elem_of_bind in Hx as (t & Hx & _).
  apply list_elem_of_bind in Hx as (r & Hx & _).
  apply list_elem_of_singleton in Hx as ->.
  destruct (similarity t r) as [q|] eqn:Hq.
  - apply similarity_range in Hq as [? ?].
    split; [apply Qle_shift_div_l | apply Qle_shift_div_r]; lra.
  - split; lra.
Qed.

(** Adding one normalised distance keeps row [i] below [(j+1)/p]. *)
Lemma CellEdit_add_bound N p i j d (v v' : Vec) :
  unit_interval d →
  row_bound N i (inject_Z (Z.of_nat j) / inject_Z (Z.of_nat p)) v →
  (x ← py_div d (inject_Z (Z.of_nat p));
   old ← np_getitem v i;
   Ok (<[i := x + old]> v)) = Ok v' →
  row_bound N i (inject_Z (Z.of_nat (S j)) / inject_Z (Z.of_nat p)) v'.
Proof.
  intros [Hd0 Hd1] [Hlen Hv] H.
  apply bind_Ok in H as (x & Hx & H). apply bind_Ok in H as (old & Hold & H).
  inversion H; subst v'; clear H.
  apply py_div_Ok in Hx as [Hp ->].
  unfold np_getitem in Hold. destruct (v !! i) as [o|] eqn:Hi; [|done].
  inversion Hold; subst o; clear Hold.
  assert (0 < inject_Z (Z.of_nat p)) as Hpos.
  { destruct p; [by destruct Hp|].
    change 0 with (inject_Z 0). rewrite <- Zlt_Qlt. lia. }
  assert (0 < / inject_Z (Z.of_nat p)) as Hinv by by apply Qinv_lt_0_compat.
  split; [by rewrite length_insert|].
  intros k y. destruct (decide (k = i)) as [->|Hk].
  - rewrite list_lookup_insert_eq by (apply lookup_lt_Some in Hi; lia).
    intros [= <-]. split; [lia|]. split; [|lia]. intros _.
    destruct (Hv i old Hi) as (_ & Hb & _). specialize (Hb eq_refl).
    rewrite Nat2Z.inj_succ, <- Z.add_1_r, inject_Z_plus.
    change (inject_Z 1) with 1. unfold Qdiv in *.
    set (ip := / inject_Z (Z.of_nat p)) in *.
    set (jq := inject_Z (Z.of_nat j)) in *.
    assert (0 <= d * ip) by (apply Qmult_le_0_compat; lra).
    assert (d * ip <= 1 * ip) by (apply Qmult_le_compat_r; lra).
    split; [lra|]. ring_simplify. lra.
  - rewrite list_lookup_insert_ne by done. intros Hy.
    destruct (Hv k y Hy) as (H1 & _ & H3). split; [done|]. split; [done|done].
Qed.

Lemma row_bound_weaken N i j p (v : Vec) :
  row_bound N i (inject_Z (Z.of_nat j) / inject_Z (Z.of_nat p)) v →
  row_bound N i (inject_Z (Z.of_nat (S j)) / inject_Z (Z.of_nat p)) v.
Proof.
  intros [Hlen Hv]. split; [done|]. intros k x Hx.
  destruct (Hv k x Hx) as (H1 & H2 & H3). split; [done|]. split; [|done].
  intros Hk. destruct (H2 Hk) as [? Hle]. split; [done|].
  eapply Qle_trans; [exact Hle|]. unfold Qdiv. apply Qmult_le_compat_r.
  - rewrite <- Zle_Qle. lia.
  - apply Qinv_le_0_compat. change 0 with (inject_Z 0). rewrite <- Zle_Qle. lia.
Qed.

Lemma CellEdit_cell_bound source metric df N p i j (v v' : Vec) :
  row_bound N i (inject_Z (Z.of_nat j) / inject_Z (Z.of_nat p)) v →
  CellEdit_cell source metric df p i j v = Ok v' →
  row_bound N i (inject_Z (Z.of_nat (S j)) / inject_Z (Z.of_nat p)) v'.
Proof.
  intros Hv H. unfold CellEdit_cell in H.
  assert (unit_interval 1) as Hone by (split; lra).
  apply bind_Ok in H as (c & _ & H). apply bind_Ok in H as (r & _ & H).
  apply bind_Ok in H as (cname & _ & H).
  destruct (decide (py_str c = py_str r)).
  { inversion H; subst; by apply row_bound_weaken. }
  destruct (decide (c = VNone)).
  { inversion H; subst; by apply row_bound_weaken. }
  destruct (_ && _).
  { by eapply CellEdit_add_bound. }
  destruct (_ && _).
  { by eapply CellEdit_add_bound. }
  apply bind_Ok in H as (m & _ & H).
  set (ts := list_to_set (lower_split (py_str c)) : gset string) in *.
  set (rs := list_to_set (lower_split (py_str r)) : gset string) in *.
  destruct (decide (m = "edit")).
  { eapply CellEdit_add_bound; [apply levenshtein_range|done..]. }
  destruct (decide (m = "jaccard")).
  { apply bind_Ok in H as (jac & Hjac & H).
    eapply CellEdit_add_bound; [|done..].
    apply py_div_Ok in Hjac as [Hne ->].
    assert (unit_interval (inject_Z (Z.of_nat (size (ts ∩ rs))) /
                           inject_Z (Z.of_nat (size (ts ∪ rs))))) as [? ?].
    { assert (size (ts ∩ rs) ≤ size (ts ∪ rs))%nat
        by (apply subseteq_size; set_solver).
      assert (0 < inject_Z (Z.of_nat (size (ts ∪ rs)))).
      { destruct (size (ts ∪ rs)); [by destruct Hne|].
        change 0 with (inject_Z 0). rewrite <- Zlt_Qlt. lia. }
      split; [apply Qle_shift_div_l | apply Qle_shift_div_r]; try done.
      - rewrite Qmult_0_l. change 0 with (inject_Z 0). rewrite <- Zle_Qle. lia.
      - rewrite Qmult_1_l. rewrite <- Zle_Qle. lia. }
    split; lra. }
  destruct (decide (m = "semantic")).
  2: { inversion H; subst; by apply row_bound_weaken. }
  destruct (decide _).
  2: { by eapply CellEdit_add_bound. }
  eapply CellEdit_add_bound; [|done..].
  destruct (np_mean_unit (semantic_sims ts rs)) as [? ?];
    [apply semantic_sims_unit|done|].
  split; lra.
Qed.

Lemma CellEdit__qfn_quality source metric df v :
  CellEdit__qfn source metric df = Ok v → quality_vector df v.
Proof.
  unfold CellEdit__qfn. destruct (negb _).
  { intros [= <-]. apply quality_ones. }
  intros H.
  assert (row_bound (nrows df) (nrows df) 0 v) as [Hlen Hv].
  { revert H. apply (for_range_inv (λ i, row_bound (nrows df) i 0)).
    - split; [apply np_zeros_length|]. intros k x Hx.
      apply lookup_replicate in Hx as [-> _].
      repeat split; (lia || lra).
    - intros i w w' Hi Hw Hrow.
      assert (row_bound (nrows df) i
                (inject_Z (Z.of_nat (ncols df)) / inject_Z (Z.of_nat (ncols df))) w')
        as [Hlen Hw'].
      { revert Hrow.
        apply (for_range_inv (λ j, row_bound (nrows df) i
                 (inject_Z (Z.of_nat j) / inject_Z (Z.of_nat (ncols df))))).
        - destruct Hw as [Hl Hw]. split; [done|]. intros k x Hx.
          destruct (Hw k x Hx) as (? & Hk & ?). split; [done|]. split; [|done].
          intros Hki. destruct (Hk Hki). split; [done|].
          unfold Qdiv. simpl. by rewrite Qmult_0_l.
        - intros j u u' _. apply CellEdit_cell_bound. }
      split; [done|]. intros k x Hx. destruct (Hw' k x Hx) as (H1 & H2 & H3).
      split; [|split].
      + intros Hk. destruct (decide (k = i)) as [->|]; [|apply H1; lia].
        destruct (H2 eq_refl) as [? Hle]. split; [done|].
        eapply Qle_trans; [exact Hle|].
        destruct (ncols df) as [|c]; [by unfold Qdiv|].
        apply Qle_shift_div_r; [|rewrite Qmult_1_l; apply Qle_refl].
        change 0 with (inject_Z 0). rewrite <- Zlt_Qlt. lia.
      + intros ->. assert (x == 0) as -> by (apply H3; lia). lra.
      + intros Hk. apply H3. lia. }
  split; [done|]. apply Forall_lookup. intros k x Hx.
  apply (Hv k x Hx). by apply lookup_lt_Some in Hx; lia.
Qed.

End LibraryFacts.

(** ** FD: the scores are [(k - 1) / m] *)

Lemma for_range_total {St} (P : nat → St → Prop) (n : nat)
    (body : nat → St → exc St) s :
  P 0%nat s →
  (∀ i s, (i < n)%nat → P i s → ∃ s', body i s = Ok s' ∧ P (S i) s') →
  ∃ r, for_range n body s = Ok r ∧ P n r.
Proof.
  unfold for_range. intros Hs Hstep.
  cut (∀ m a s, (a + m = n)%nat → P a s →
         ∃ r, for_each (seq a m) body s = Ok r ∧ P n r).
  { intros Hcut. by apply (Hcut n 0%nat s). }
  clear s Hs. intros m. induction m as [|m IH]; intros a s Ha Hs; simpl.
  - replace n with a by lia. eauto.
  - destruct (Hstep a s) as (s' & -> & Hs'); [lia|done|]. simpl.
    apply IH; [lia|done].
Qed.

Lemma mapM_length {X Y} (f : X → exc Y) xs ys :
  mapM f xs = Ok ys → length ys = length xs.
Proof.
  revert ys. induction xs as [|x xs IH]; intros ys H; simpl in H.
  - by inversion H.
  - apply bind_Ok in H as (y & _ & H). apply bind_Ok in H as (ys' & Hys & H).
    inversion H; subst. simpl. f_equal. by apply IH.
Qed.

Lemma getitems_nrows df cs d : getitems df cs = Ok d → nrows d = nrows df.
Proof.
  unfold getitems. intros H. apply bind_Ok in H as (js & _ & H).
  apply bind_Ok in H as (rows & Hrows & H). inversion H; subst.
  unfold nrows. simpl. by apply mapM_length in Hrows.
Qed.

Lemma max_list_le (ns : list nat) (b : nat) :
  (∀ n, n ∈ ns → (n ≤ b)%nat) → (max_list ns ≤ b)%nat.
Proof.
  induction ns as [|n ns IH]; intros H; simpl; [lia|].
  apply Nat.max_lub; [apply H; set_solver | apply IH; intros; apply H; set_solver].
Qed.

Lemma targets_with_snoc pre s t s' :
  targets_with (pre ++ [(s, t)]) s' =
  targets_with pre s' ++ (if decide (s = s') then [t] else []).
Proof.
  unfold targets_with. rewrite filter_app, fmap_app. f_equal.
  rewrite filter_cons, filter_nil. simpl. by case_decide.
Qed.

Lemma size_targets (l : list (list value)) :
  size (list_to_set l : gset (list value)) = length (remove_dups l).
Proof.
  rewrite <- (size_list_to_set (C := gset (list value)) (remove_dups l))
    by apply NoDup_remove_dups.
  f_equal. apply set_eq. intros x.
  by rewrite !elem_of_list_to_set, elem_of_remove_dups.
Qed.

Lemma FD_inv_nil : FD_inv [] (∅, 0%nat).
Proof.
  split; [|split; [|split]]; simpl.
  - intros s ts. by rewrite lookup_empty.
  - intros p Hp. by apply elem_of_nil in Hp.
  - intros s ts. by rewrite lookup_empty.
  - by left.
Qed.

(** One iteration of the first loop on the row [(s, t)]. *)
Lemma FD_inv_step pre s t kv norm :
  FD_inv pre (kv, norm) →
  let kv' := match kv !! s with
             | Some ts => <[s := ts ∪ {[t]}]> kv
             | None => <[s := {[t]}]> kv
             end in
  ∃ new, kv' !! s = Some new ∧
         FD_inv (pre ++ [(s, t)]) (kv', (size new `max` norm)%nat).
Proof.
  intros (HA & HB & HC & HD). simpl in *.
  set (new := list_to_set (targets_with (pre ++ [(s, t)]) s) : gset (list value)).
  assert ((match kv !! s with
           | Some ts => <[s := ts ∪ {[t]}]> kv
           | None => <[s := {[t]}]> kv
           end) = <[s := new]> kv) as ->.
  { subst new. rewrite targets_with_snoc, decide_True by done.
    rewrite list_to_set_app_L. simpl. destruct (kv !! s) as [ts|] eqn:Hs.
    - destruct (HA s ts Hs) as [-> _]. f_equal. set_solver.
    - f_equal. assert (targets_with pre s = []) as ->; [|set_solver].
      destruct (targets_with pre s) as [|t' l] eqn:Ht; [done|].
      assert (t' ∈ targets_with pre s) as Hin by (rewrite Ht; set_solver).
      unfold targets_with in Hin. apply list_elem_of_fmap in Hin as ([s' t''] & -> & Hin).
      apply list_elem_of_filter in Hin as [Heq Hin]. simpl in Heq. subst s'.
      destruct (HB _ Hin) as [ts Hts]. simpl in Hts. congruence. }
  exists new. rewrite lookup_insert_eq. split; [done|].
  assert (∀ ts, kv !! s = Some ts → (size ts ≤ size new)%nat) as Hgrow.
  { intros ts Hs. destruct (HA s ts Hs) as [-> _]. apply subseteq_size.
    subst new. rewrite targets_with_snoc. set_solver. }
  split; [|split; [|split]]; simpl.
  - intros s' ts'. rewrite lookup_insert. case_decide as Hs.
    + intros [= <-]. subst s'. split; [done|]. exists t. set_solver.
    + intros Hl. destruct (HA _ _ Hl) as [-> [t' Ht']]. split.
      * by rewrite targets_with_snoc, decide_False, app_nil_r.
      * exists t'. set_solver.
  - intros p Hp. rewrite lookup_insert. case_decide; [done|].
    apply elem_of_app in Hp as [Hp|Hp]; [by apply HB|].
    apply list_elem_of_singleton in Hp. by subst.
  - intros s' ts'. rewrite lookup_insert. case_decide.
    + intros [= <-]. lia.
    + intros Hl. specialize (HC _ _ Hl). lia.
  - destruct (Nat.max_spec (size new) norm) as [[Hlt ->]|[Hge ->]].
    + right. destruct HD as [->|(s0 & ts0 & Hs0 & Hsz)]; [lia|].
      exists s0, ts0. split; [|done]. rewrite lookup_insert_ne; [done|].
      intros ->. specialize (Hgrow _ Hs0). lia.
    + right. exists s, new. by rewrite lookup_insert_eq.
Qed.

Lemma box_nan_free fresh row :
  Forall (λ v, is_nan v = false) row → box fresh row = row.
Proof.
  induction 1 as [|v row Hv _ IH]; [done|].
  unfold box in *. rewrite fmap_cons, IH. by destruct v.
Qed.

Section FD_refinement.
Variables (source target : list string) (df dS dT : DataFrame).
Hypothesis HdS : getitems df source = Ok dS.
Hypothesis HdT : getitems df target = Ok dT.
Hypothesis Hnan : nan_free (values dS).

Local Abbreviation pairs := (zip (values dS) (boxed_rows (values dT))).

Lemma FD_pairs_length : length pairs = nrows df.
Proof using HdS HdT.
  unfold boxed_rows. rewrite length_zip, length_imap.
  apply getitems_nrows in HdS, HdT. unfold nrows in *. lia.
Qed.

Lemma FD_pairs_lookup i :
  (i < nrows df)%nat →
  ∃ s t, pairs !! i = Some (s, t) ∧
         (∀ fresh, tuple_iloc fresh dS i = Ok s) ∧ tuple_iloc i dT i = Ok t.
Proof using HdS HdT Hnan.
  intros Hi. pose proof FD_pairs_length as Hlen.
  destruct (lookup_lt_is_Some_2 pairs i) as [[s t] Hp]; [lia|].
  exists s, t. split; [done|].
  apply lookup_zip_with_Some in Hp as (s' & t' & [= <- <-] & Hs & Ht).
  unfold boxed_rows in Ht. rewrite list_lookup_imap in Ht.
  destruct (values dT !! i) as [row|] eqn:Hrow; [|done].
  simpl in Ht. injection Ht as Ht. unfold tuple_iloc. rewrite Hs, Hrow, Ht.
  split; [|done]. intros fresh. f_equal. apply box_nan_free.
  unfold nan_free in Hnan. rewrite Forall_lookup in Hnan. by apply (Hnan i).
Qed.

Lemma FD_loop1_run :
  ∃ kv norm,
    for_range (nrows df) (FD_loop1 source target df) (∅, 0%nat) = Ok (kv, norm) ∧
    FD_inv pairs (kv, norm).
Proof using HdS HdT Hnan.
  destruct (for_range_total (λ i, FD_inv (take i pairs)) (nrows df)
              (FD_loop1 source target df) (∅, 0%nat)) as ([kv norm] & Hrun & Hinv).
  - apply FD_inv_nil.
  - intros i [kv norm] Hi Hinv.
    destruct (FD_pairs_lookup i Hi) as (s & t & Hp & Hs & Ht).
    destruct (FD_inv_step _ s t _ _ Hinv) as (new & Hnew & Hinv').
    unfold FD_loop1. rewrite HdS, HdT. simpl. rewrite (Hs i), Ht. simpl.
    rewrite Hnew. simpl. eexists; split; [done|].
    by rewrite (take_S_r _ _ _ Hp).
  - exists kv, norm. split; [done|].
    rewrite take_ge in Hinv; [done|]. rewrite FD_pairs_length. lia.
Qed.

Lemma FD_inv_group kv norm p :
  FD_inv pairs (kv, norm) → p ∈ pairs →
  ∃ ts, kv !! p.1 = Some ts ∧ size ts = distinct_targets pairs p.1 ∧
        (1 ≤ size ts ≤ norm)%nat.
Proof.
  intros (HA & HB & HC & HD) Hp. simpl in *.
  destruct (HB p Hp) as [ts Hts]. exists ts. split; [done|].
  destruct (HA _ _ Hts) as [-> _]. split; [apply size_targets|].
  split; [|by apply (HC _ _ Hts)].
  rewrite <- (size_singleton (C := gset (list value)) p.2).
  apply subseteq_size. apply singleton_subseteq_l, elem_of_list_to_set.
  unfold targets_with. apply list_elem_of_fmap. exists p. split; [done|].
  by apply list_elem_of_filter.
Qed.

Lemma FD_inv_worst kv norm :
  FD_inv pairs (kv, norm) → worst_group pairs = norm.
Proof.
  intros Hinv. apply Nat.le_antisymm.
  - apply max_list_le. intros n Hn.
    apply list_elem_of_fmap in Hn as (p & -> & Hp).
    destruct (FD_inv_group kv norm p Hinv Hp) as (ts & _ & <- & ?). lia.
  - destruct Hinv as (HA & HB & HC & HD). simpl in *.
    destruct HD as [->|(s & ts & Hs & <-)]; [lia|].
    destruct (HA _ _ Hs) as [-> [t Ht]].
    apply max_list_elem_of_le, list_elem_of_fmap. exists (s, t).
    split; [|done]. simpl. unfold distinct_targets. apply size_targets.
Qed.

Lemma FD__qfn_scores : FD__qfn source target df = Ok (FD_scores pairs).
Proof using HdS HdT Hnan.
  unfold FD__qfn. destruct FD_loop1_run as (kv & norm & -> & Hinv). simpl.
  pose proof FD_pairs_length as Hlen.
  destruct (for_range_total
              (λ i v, length v = nrows df ∧
                      ∀ j, (j < i)%nat → v !! j = FD_scores pairs !! j)
              (nrows df) (FD_loop2 source df kv norm) (np_zeros (nrows df)))
    as (v & -> & Hl & Hv).
  - split; [apply np_zeros_length | lia].
  - intros i v Hi [Hl Hv].
    destruct (FD_pairs_lookup i Hi) as (s & t & Hp & Hs & _).
    assert ((s, t) ∈ pairs) as Hin by by eapply list_elem_of_lookup_2.
    destruct (FD_inv_group kv norm _ Hinv Hin) as (ts & Hts & Hsz & H1 & Hn).
    simpl in Hts. unfold FD_loop2. rewrite HdS. simpl. rewrite (Hs _). simpl.
    rewrite Hts. simpl. unfold py_div.
    assert (Qeq_bool (inject_Z (Z.of_nat norm)) 0 = false) as ->.
    { apply not_true_is_false. intros Heq%Qeq_bool_eq.
      unfold Qeq in Heq. simpl in Heq. lia. }
    simpl. eexists; split; [done|]. split; [by rewrite length_insert|].
    intros j Hj. destruct (decide (j = i)) as [->|Hne].
    + rewrite list_lookup_insert_eq by lia. unfold FD_scores.
      rewrite list_lookup_fmap, Hp. simpl in *. unfold FD_score.
      by rewrite <- Hsz, (FD_inv_worst kv norm Hinv).
    + rewrite list_lookup_insert_ne by done. apply Hv. lia.
  - f_equal. apply list_eq. intros j.
    destruct (decide (j < nrows df)%nat) as [Hj|Hj]; [by apply Hv|].
    rewrite !lookup_ge_None_2; [done|..].
    + unfold FD_scores. rewrite length_fmap. lia.
    + lia.
Qed.

End FD_refinement.




Section Lengths.
Context {L : Library}.

Lemma CellEdit_cell_length source metric df p i j (v v' : Vec) :
  CellEdit_cell source metric df p i j v = Ok v' → length v' = length v.
Proof.
  unfold CellEdit_cell. intros H.
  assert (∀ d, (x ← py_div d (inject_Z (Z.of_nat p));
                old ← np_getitem v i;
                Ok (<[i := x + old]> v)) = Ok v' → length v' = length v) as Hadd.
  { intros d Hd. apply bind_Ok in Hd as (x & _ & Hd).
    apply bind_Ok in Hd as (old & _ & Hd). inversion Hd; subst.
    apply length_insert. }
  apply bind_Ok in H as (c & _ & H). apply bind_Ok in H as (r & _ & H).
  apply bind_Ok in H as (cname & _ & H).
  destruct (decide (py_str c = py_str r)); [by inversion H|].
  destruct (decide (c = VNone)); [by inversion H|].
  destruct (_ && _); [by eapply Hadd|].
  destruct (_ && _); [by eapply Hadd|].
  apply bind_Ok in H as (m & _ & H).
  destruct (decide (m = "edit")); [by eapply Hadd|].
  destruct (decide (m = "jaccard")).
  { apply bind_Ok in H as (jac & _ & H). by eapply Hadd. }
  destruct (decide (m = "semantic")); [|by inversion H].
  destruct (decide _); by eapply Hadd.
Qed.

Lemma CellEdit__qfn_length source metric df v :
  CellEdit__qfn source metric df = Ok v → length v = nrows df.
Proof.
  unfold CellEdit__qfn. destruct (negb _).
  { intros [= <-]. apply np_ones_length. }
  apply (for_each_inv (λ v, length v = nrows df)); [apply np_zeros_length|].
  intros i w w' _ Hw.
  apply (for_each_inv (λ v, length v = nrows df)); [done|].
  intros j u u' _ Hu Hcell. apply CellEdit_cell_length in Hcell. congruence.
Qed.

Lemma Constraint_qfn_length _qfn df :
  (∀ v, _qfn df = Ok v → length v = nrows df) →
  ∃ v, Constraint_qfn _qfn df = Ok v ∧ length v = nrows df.
Proof.
  intros H. unfold Constraint_qfn, try_except.
  destruct (_qfn df) as [v|e]; [eauto | eauto using np_ones_length].
Qed.

(** Every quality function is total and returns one entry per row. *)
Lemma constraint_object_length c df :
  constraint_object c → ∃ v, qfn c df = Ok v ∧ length v = nrows df.
Proof.
  induction 1 as [| | | | | | |source metric
                  |a b c _ [va [Ha Hla]] _ [vb [Hb Hlb]] Hc
                  |a w c _ _ Hc
                  |a b c _ [va [Ha Hla]] _ [vb [Hb Hlb]] Hc
                  |a w c _ _ Hc].
  - apply Constraint_qfn_length. discriminate.
  - apply Constraint_qfn_length. intros v Hv. by apply FD__qfn_quality in Hv as [? _].
  - apply Constraint_qfn_length. intros v Hv.
    by apply Predicate__qfn_quality in Hv as [? _].
  - apply Constraint_qfn_length. intros v Hv.
    by apply Predicate__qfn_quality in Hv as [? _].
  - apply Constraint_qfn_length. intros v Hv.
    by apply Predicate__qfn_quality in Hv as [? _].
  - apply Constraint_qfn_length. intros v Hv.
    by apply Predicate__qfn_quality in Hv as [? _].
  - apply Constraint_qfn_length. intros v Hv.
    by apply Shape__qfn_quality in Hv as [? _].
  - apply Constraint_qfn_length, CellEdit__qfn_length.
  - apply Constraint_add_Ok in Hc as (?&?&?&?&_&_&_&_&_&_&->).
    simpl. rewrite Ha, Hb. simpl. unfold np_add.
    rewrite np_zip_same by congruence. simpl. eexists; split; [done|].
    unfold np_div. rewrite length_map, length_zip_with. lia.
  - apply Constraint_add_Ok in Hc as (?&?&?&?&_&?&_). done.
  - apply Constraint_mul_constraint_Ok in Hc as (?&?&?&?&_&_&_&_&_&_&->).
    simpl. rewrite Ha, Hb. simpl. unfold np_maximum.
    rewrite np_zip_same by congruence. eexists; split; [done|].
    rewrite length_zip_with. lia.
  - by apply Constraint_mul_float in Hc.
Qed.

(** C5, amended. For constraint objects [a] and [b] whose sum is built,
    [a + b] scores every row with the mean of the two scores, its hint
    is the union of the two hints, and its hint parameters hold every
    key of either map, with the value of the right operand [b] wherever
    [b] has the key. *)
Theorem Constraint_add_mean_union_right (a b c : Constraint) (df : DataFrame) :
  constraint_object a → constraint_object b →
  Constraint_add a (PConstraint b) = Ok c →
  ∃ va vb vc ha hb pa pb pc,
    qfn a df = Ok va ∧ qfn b df = Ok vb ∧ qfn c df = Ok vc ∧
    length va = nrows df ∧ length vb = nrows df ∧ length vc = nrows df ∧
    (∀ i x y, va !! i = Some x → vb !! i = Some y →
              vc !! i = Some ((x + y) / 2)) ∧
    hint a = Some ha ∧ hint b = Some hb ∧ hint c = Some (ha ∪ hb) ∧
    hintParams a = Some pa ∧ hintParams b = Some pb ∧
    hintParams c = Some pc ∧
    (∀ k, pc !! k = match pb !! k with
                    | Some v => Some v
                    | None => pa !! k
                    end).
Proof.
  intros Ha Hb Hc.
  destruct (constraint_object_length a df Ha) as (va & Hva & Hla).
  destruct (constraint_object_length b df Hb) as (vb & Hvb & Hlb).
  apply Constraint_add_Ok in Hc as (ha & hb & pa & pb & Hha & Hhb & Hpa & Hpb & Hhc & Hpc & Hq).
  simpl in Hhb, Hpb. unfold get_hint in Hhb. unfold get_hintParams in Hpb.
  destruct (hint b) as [hb'|] eqn:Ehb; [|done]. inversion Hhb; subst hb'.
  destruct (hintParams b) as [pb'|] eqn:Epb; [|done]. inversion Hpb; subst pb'.
  exists va, vb, (np_div (zip_with Qplus va vb) 2), ha, hb, pa, pb, (dict_update pa pb).
  repeat split; try done.
  - rewrite Hq. simpl. rewrite Hva, Hvb. simpl. unfold np_add.
    by rewrite np_zip_same by congruence.
  - unfold np_div. rewrite length_map, length_zip_with. lia.
  - intros i x y Hx Hy. unfold np_div.
    rewrite list_lookup_fmap, lookup_zip_with, Hx. simpl. by rewrite Hy.
  - intros k. unfold dict_update. rewrite lookup_union.
    destruct (pb !! k), (pa !! k); done.
Qed.

End Lengths.

Lemma Constraint_add_mean_union_right_witness :
  constraint_object (L := stub_library) (DictValue "city" [VStr "NYC"]) ∧
  constraint_object (L := stub_library) (DictValue "state" [VStr "NY"]) ∧
  ∃ c, Constraint_add (DictValue "city" [VStr "NYC"])
         (PConstraint (DictValue "state" [VStr "NY"])) = Ok c ∧
  ∃ va vb vc ha hb pa pb pc,
    qfn (DictValue "city" [VStr "NYC"]) cities = Ok va ∧
    qfn (DictValue "state" [VStr "NY"]) cities = Ok vb ∧
    qfn c cities = Ok vc ∧
    length va = nrows cities ∧ length vb = nrows cities ∧
    length vc = nrows cities ∧
    (∀ i x y, va !! i = Some x → vb !! i = Some y →
              vc !! i = Some ((x + y) / 2)) ∧
    hint (DictValue "city" [VStr "NYC"]) = Some ha ∧
    hint (DictValue "state" [VStr "NY"]) = Some hb ∧
    hint c = Some (ha ∪ hb) ∧
    hintParams (DictValue "city" [VStr "NYC"]) = Some pa ∧
    hintParams (DictValue "state" [VStr "NY"]) = Some pb ∧
    hintParams c = Some pc ∧
    (∀ k, pc !! k = match pb !! k with
                    | Some v => Some v
                    | None => pa !! k
                    end).
Proof.
  split; [constructor|]. split; [constructor|].
  eexists. split; [reflexivity|].
  apply (Constraint_add_mean_union_right (L := stub_library));
    [constructor | constructor | reflexivity].
Defined.

Lemma stub_library_bounds : LibraryBounds stub_library.
Proof.
  split.
  - intros a b. simpl. case_decide; split; lra.
  - intros a b q. discriminate.
Qed.

Section QualityFunctions.
Context {L : Library} {LB : LibraryBounds L}.

Lemma zip_mean_unit (x y : Vec) :
  Forall unit_interval x → Forall unit_interval y →
  Forall unit_interval (np_div (zip_with Qplus x y) 2).
Proof.
  intros Hx. revert y. induction Hx as [|a x [? ?] _ IH]; intros y Hy; [constructor|].
  destruct Hy as [|b y [? ?] Hy]; [constructor|]. simpl. constructor; [|by apply IH].
  split; [apply Qle_shift_div_l | apply Qle_shift_div_r]; lra.
Qed.

Lemma zip_max_unit (x y : Vec) :
  Forall unit_interval x → Forall unit_interval y →
  Forall unit_interval (zip_with Qmax x y).
Proof.
  intros Hx. revert y. induction Hx as [|a x [? ?] _ IH]; intros y Hy; [constructor|].
  destruct Hy as [|b y [? ?] Hy]; [constructor|]. simpl. constructor; [|by apply IH].
  split; [|by apply Q.max_lub].
  eapply Qle_trans; [|apply Q.le_max_l]. done.
Qed.

Lemma constraint_object_quality c df :
  constraint_object c → ∃ v, qfn c df = Ok v ∧ quality_vector df v.
Proof.
  induction 1 as [| | | | | | |source metric
                  |a b c _ [va [Ha [Hla Hua]]] _ [vb [Hb [Hlb Hub]]] Hc
                  |a w c _ _ Hc
                  |a b c _ [va [Ha [Hla Hua]]] _ [vb [Hb [Hlb Hub]]] Hc
                  |a w c _ _ Hc].
  - apply Constraint_qfn_quality. discriminate.
  - apply Constraint_qfn_quality, FD__qfn_quality.
  - apply Constraint_qfn_quality, Predicate__qfn_quality.
  - apply Constraint_qfn_quality, Predicate__qfn_quality.
  - apply Constraint_qfn_quality, Predicate__qfn_quality.
  - apply Constraint_qfn_quality, Predicate__qfn_quality.
  - apply Constraint_qfn_quality, Shape__qfn_quality.
  - apply Constraint_qfn_quality, CellEdit__qfn_quality.
  - apply Constraint_add_Ok in Hc as (?&?&?&?&_&_&_&_&_&_&->).
    simpl. rewrite Ha, Hb. simpl. unfold np_add.
    rewrite np_zip_same by congruence. simpl. eexists; split; [done|]. split.
    + unfold np_div. rewrite length_map, length_zip_with. lia.
    + by apply zip_mean_unit.
  - apply Constraint_add_Ok in Hc as (?&?&?&?&_&?&_). done.
  - apply Constraint_mul_constraint_Ok in Hc as (?&?&?&?&_&_&_&_&_&_&->).
    simpl. rewrite Ha, Hb. simpl. unfold np_maximum.
    rewrite np_zip_same by congruence. eexists; split; [done|]. split.
    + rewrite length_zip_with. lia.
    + by apply zip_max_unit.
  - by apply Constraint_mul_float in Hc.
Qed.



End QualityFunctions.


(** ** The search *)

Lemma Qltb_lt x y : Qltb x y = true ↔ x < y.
Proof.
  unfold Qltb. rewrite negb_true_iff, <- not_true_iff_false, Qle_bool_iff.
  split; [apply Qnot_le_lt | apply Qlt_not_le].
Qed.

Lemma Qltb_ge x y : Qltb x y = false ↔ y <= x.
Proof. unfold Qltb. by rewrite negb_false_iff, Qle_bool_iff. Qed.

Section SearchFacts.
Context {G : Generators}.
Variables (costFn : Constraint) (efn : DataFrame → exc Vec).
Variables (operations : list OperationKind) (inflation editCost : Q).

(** What one sampled operation does to the state. *)
Lemma treeSearch_branch_cases op frame opbranch st st' :
  treeSearch_branch costFn efn editCost op frame opbranch st = Ok st' →
  st' = st ∨
  ((op_name opbranch ∉ bad_op_cache st) ∧
   st' = mkSearchState (best st) (branch_hash st)
           (bad_op_cache st ∪ {[op_name opbranch]}) (scored st) (skipped st)) ∨
  ∃ output n,
    (op_name opbranch ∉ bad_op_cache st) ∧
    op_run opbranch frame = Ok output ∧ pruningRules output = false ∧
    combined_score costFn efn editCost output = Ok n ∧
    st' = mkSearchState
            (if Qltb n (best_value st) then (n, op_mul op opbranch, output)
             else best st)
            (branch_hash st) (bad_op_cache st)
            (scored st ++ [(output, n)]) (skipped st).
Proof.
  unfold treeSearch_branch. case_decide as Hbad; [intros [= <-]; by left|].
  destruct (op_run opbranch frame) as [output|e] eqn:Hrun.
  - destruct (pruningRules output) eqn:Hprune; [intros [= <-]; by left|].
    intros H. apply bind_Ok in H as (n & Hn & H). inversion H; subst.
    right; right. by exists output, n.
  - intros [= <-]. right; left. done.
Qed.

Lemma treeSearch_round_inv (P : SearchState → Prop) i st st' :
  P st →
  (prune_by_inflation inflation st = true →
   P (mkSearchState (best st) (branch_hash st) (bad_op_cache st)
        (scored st) (S (skipped st)))) →
  (∀ opbranch s s',
     P s →
     treeSearch_branch costFn efn editCost (best_op st) (best_frame st)
       opbranch s = Ok s' → P s') →
  treeSearch_round costFn efn operations inflation editCost i st = Ok st' →
  P st'.
Proof.
  intros Hst Hskip Hbranch. unfold treeSearch_round, best_op, best_frame in *.
  destruct (best st) as [[value op] frame] eqn:Hbest. simpl in *.
  destruct (prune_by_inflation inflation st).
  { intros [= <-]. by apply Hskip. }
  intros H. apply bind_Ok in H as (costEval & _ & H). revert H.
  apply for_each_inv; [done|]. intros opbranch s s' _. apply Hbranch.
Qed.

Lemma treeSearch_run_inv (P : SearchState → Prop) df evaluations st :
  P (treeSearch_init df) →
  (∀ i s s',
     P s →
     treeSearch_round costFn efn operations inflation editCost i s = Ok s' →
     P s') →
  treeSearch_run efn df costFn operations evaluations inflation editCost = Ok st →
  P st.
Proof.
  intros Hinit Hround. unfold treeSearch_run, for_range.
  apply for_each_inv; [done|]. intros i s s' _. apply Hround.
Qed.

(** A run of one more round is the run followed by that round. *)
Lemma treeSearch_run_succ df evaluations :
  treeSearch_run efn df costFn operations (S evaluations) inflation editCost =
  (st ← treeSearch_run efn df costFn operations evaluations inflation editCost;
   treeSearch_round costFn efn operations inflation editCost evaluations st).
Proof.
  unfold treeSearch_run, for_range. rewrite seq_S, for_each_app. simpl.
  destruct (for_each _ _ _) as [st|e]; [|done]. simpl.
  by destruct (treeSearch_round _ _ _ _ _ _ _).
Qed.

(** Every entry of [scored] is a table that passed the structural
    pruning, with the value line 185 computed for it. *)
Lemma treeSearch_scored df evaluations st output n :
  treeSearch_run efn df costFn operations evaluations inflation editCost = Ok st →
  (output, n) ∈ scored st →
  pruningRules output = false ∧
  combined_score costFn efn editCost output = Ok n.
Proof.
  intros Hrun. revert output n.
  set (P := λ st, ∀ output n, (output, n) ∈ scored st →
                    pruningRules output = false ∧
                    combined_score costFn efn editCost output = Ok n).
  apply (treeSearch_run_inv P df evaluations st); [| |done].
  - intros output n Hin. by apply elem_of_nil in Hin.
  - intros i s s' Hs. apply (treeSearch_round_inv P i s s' Hs); [done|].
    intros opbranch t t' Ht Hb output n.
    apply treeSearch_branch_cases in Hb
      as [->|[[_ ->]|(o & m & _ & _ & Hp & Hm & ->)]]; simpl; auto.
    rewrite elem_of_app, list_elem_of_singleton.
    intros [Hin|[= -> ->]]; [by apply Ht|done].
Qed.

(** [best] holds a value that is at most 2.0 and at most the score of
    every candidate scored so far. *)
Lemma treeSearch_best_least df evaluations st :
  treeSearch_run efn df costFn operations evaluations inflation editCost = Ok st →
  best_value st <= 2 ∧
  ∀ output n, (output, n) ∈ scored st → best_value st <= n.
Proof.
  set (P := λ st, best_value st <= 2 ∧
                  ∀ output n, (output, n) ∈ scored st → best_value st <= n).
  apply (treeSearch_run_inv P).
  - split; [apply Qle_refl|]. intros output n Hin. by apply elem_of_nil in Hin.
  - intros i s s' Hs. apply (treeSearch_round_inv P i s s' Hs); [done|].
    intros opbranch t t' [Ht2 Ht] Hb.
    apply treeSearch_branch_cases in Hb
      as [->|[[_ ->]|(o & m & _ & _ & Hp & Hm & ->)]]; [done|done|].
    destruct (Qltb m (best_value t)) eqn:Hlt; unfold P;
      cbn [scored]; unfold best_value at 1 2; cbn [best fst];
      fold (best_value t).
    + apply Qltb_lt in Hlt. split; [lra|]. intros output n.
      rewrite elem_of_app, list_elem_of_singleton.
      intros [Hin|[= -> ->]]; [|apply Qle_refl].
      specialize (Ht _ _ Hin). lra.
    + apply Qltb_ge in Hlt. split; [done|]. intros output n.
      rewrite elem_of_app, list_elem_of_singleton.
      intros [Hin|[= -> ->]]; [by apply (Ht output)|done].
Qed.

(** The set of visited hashes is the one line 143 built. *)
Lemma treeSearch_branch_hash df evaluations st :
  treeSearch_run efn df costFn operations evaluations inflation editCost = Ok st →
  branch_hash st = {[hash_str df]}.
Proof.
  set (P := λ st, branch_hash st = {[hash_str df]}).
  apply (treeSearch_run_inv P).
  - unfold P. simpl. set_solver.
  - intros i s s' Hs. apply (treeSearch_round_inv P i s s' Hs); [done|].
    intros opbranch t t' Ht Hb.
    by apply treeSearch_branch_cases in Hb
      as [->|[[_ ->]|(o & m & _ & _ & Hp & Hm & ->)]].
Qed.

(** The value of line 185 lies between 0 and [1 + editCost] when both
    quality functions return scores and the weight is not negative. *)
Lemma combined_score_bounds output n :
  (∀ v, qfn costFn output = Ok v → quality_vector output v) →
  (∀ v, efn output = Ok v → quality_vector output v) →
  0 <= editCost →
  combined_score costFn efn editCost output = Ok n →
  0 <= n <= 1 + editCost.
Proof.
  intros Hc He Hw H. unfold combined_score in H.
  apply bind_Ok in H as (c & Hqc & H). apply bind_Ok in H as (e & Hqe & H).
  apply py_div_Ok in H as [HN ->].
  destruct (Hc c Hqc) as [Hlc Huc]. destruct (He e Hqe) as [Hle Hue].
  destruct (np_sum_bounds c Huc) as [Hc0 Hc1].
  destruct (np_sum_bounds e Hue) as [He0 He1].
  rewrite Hlc in Hc1. rewrite Hle in He1.
  set (N := inject_Z (Z.of_nat (nrows output))) in *.
  assert (0 < N) as HNpos.
  { subst N. destruct (nrows output); [by destruct HN|].
    change 0 with (inject_Z 0). rewrite <- Zlt_Qlt. lia. }
  assert (0 <= editCost * np_sum e) by (apply Qmult_le_0_compat; lra).
  assert (editCost * np_sum e <= editCost * N).
  { rewrite !(Qmult_comm editCost). by apply Qmult_le_compat_r. }
  split.
  - apply Qle_shift_div_l; [done|]. lra.
  - apply Qle_shift_div_r; [done|]. lra.
Qed.

(** With a tolerance of at least one, depths and values that are not
    negative fail the test of line 152. *)
Lemma prune_by_inflation_false st :
  1 <= inflation → 0 <= op_depth (best_op st) → 0 <= best_value st →
  prune_by_inflation inflation st = false.
Proof.
  intros Hi Hd Hv. unfold prune_by_inflation, best_op, best_value in *.
  destruct (best st) as [[value op] frame]. simpl in *.
  apply Qltb_ge.
  assert (0 <= value * (inflation - 1)) by (apply Qmult_le_0_compat; lra).
  lra.
Qed.

(** The loop raises nothing of its own: with total quality functions it
    runs to the end. *)
Lemma treeSearch_run_total df evaluations :
  (∀ d, ∃ v, qfn costFn d = Ok v) → (∀ d, ∃ v, efn d = Ok v) →
  ∃ st, treeSearch_run efn df costFn operations evaluations inflation editCost
        = Ok st.
Proof.
  intros Hc He. unfold treeSearch_run, for_range.
  destruct (for_each_total (λ _, True) (seq 0 evaluations)
              (treeSearch_round costFn efn operations inflation editCost)
              (treeSearch_init df)) as (st & Hst & _); [done| |eauto].
  intros i s _ _. unfold treeSearch_round.
  destruct (best s) as [[value op] frame].
  destruct (prune_by_inflation inflation s); [eauto|].
  destruct (Hc frame) as [v ->]. simpl.
  apply for_each_total; [done|]. intros opbranch t _ _.
  unfold treeSearch_branch. case_decide; [eauto|].
  destruct (op_run opbranch frame) as [output|]; [|eauto].
  destruct (pruningRules output) eqn:Hp; [eauto|].
  unfold combined_score. destruct (Hc output) as [c ->].
  destruct (He output) as [e ->]. simpl. unfold py_div.
  assert (Qeq_bool (inject_Z (Z.of_nat (nrows output))) 0 = false) as ->.
  { unfold pruningRules in Hp. repeat case_decide; try done.
    apply not_true_is_false. intros Heq%Qeq_bool_eq.
    unfold Qeq in Heq. simpl in Heq. lia. }
  simpl. eauto.
Qed.

(** Lines 139 to 190 keep the input and [NOOP] when no scored candidate
    is below 2.0, the value [best] holds until it is first replaced. *)
Lemma treeSearch_from_keeps_input df evaluations st :
  treeSearch_run efn df costFn operations evaluations inflation editCost = Ok st →
  (∀ output n, (output, n) ∈ scored st → ¬ n < 2) →
  best st = (2, NOOP, df) ∧
  treeSearch_from efn df costFn operations evaluations inflation editCost
    = Ok (NOOP, df).
Proof.
  intros Hrun Hno. cut (best st = (2, NOOP, df)).
  { intros Hb. split; [done|]. unfold treeSearch_from. rewrite Hrun. simpl.
    unfold best_op, best_frame. by rewrite Hb. }
  revert Hno.
  set (P := λ st, (∀ output n, (output, n) ∈ scored st → ¬ n < 2) →
                  best st = (2, NOOP, df)).
  apply (treeSearch_run_inv P df evaluations st); [done| |done].
  intros i s s' Hs. apply (treeSearch_round_inv P i s s' Hs); [done|].
  intros opbranch t t' Ht Hb.
  apply treeSearch_branch_cases in Hb
    as [->|[[_ ->]|(o & m & _ & _ & Hp & Hm & ->)]]; [done|done|].
  unfold P. cbn [scored best]. intros Hno.
  assert (best t = (2, NOOP, df)) as Hbt.
  { apply Ht. intros output n Hin. apply (Hno output). set_solver. }
  assert (Qltb m (best_value t) = false) as ->; [|done].
  unfold best_value. rewrite Hbt. simpl. apply Qltb_ge.
  apply Qnot_lt_le, (Hno o). set_solver.
Qed.

(** [running_best] follows line 187. *)
Lemma running_best_snoc sc output n :
  running_best (sc ++ [(output, n)]) =
  if Qltb n (running_best sc) then n else running_best sc.
Proof. unfold running_best. by rewrite fold_left_app. Qed.

(** The value [best] holds is the one [running_best] gives for the
    candidates scored so far. *)
Lemma treeSearch_best_running df evaluations st :
  treeSearch_run efn df costFn operations evaluations inflation editCost = Ok st →
  best_value st = running_best (scored st).
Proof.
  set (P := λ st, best_value st = running_best (scored st)).
  apply (treeSearch_run_inv P).
  - done.
  - intros i s s' Hs. apply (treeSearch_round_inv P i s s' Hs); [done|].
    intros opbranch t t' Ht Hb.
    apply treeSearch_branch_cases in Hb
      as [->|[[_ ->]|(o & m & _ & _ & Hp & Hm & ->)]]; [done|done|].
    unfold P in *. cbn [scored]. rewrite running_best_snoc, <- Ht.
    unfold best_value at 1. cbn [best].
    by destruct (Qltb m (best_value t)).
Qed.

(** When no candidate was below the value [best] held, that value
    stayed 2.0 and no candidate was below 2.0. *)
Lemma never_improved_sentinel sc :
  never_improved sc →
  running_best sc = 2 ∧ ∀ output n, (output, n) ∈ sc → ¬ n < 2.
Proof.
  induction sc as [|[o m] sc IH] using rev_ind; intros Hsc.
  { split; [done|]. intros output n Hin. by apply elem_of_nil in Hin. }
  destruct IH as [Hrb Hall].
  { intros k output n Hk. pose proof (lookup_lt_Some _ _ _ Hk) as Hlt.
    specialize (Hsc k output n). rewrite lookup_app_l in Hsc by done.
    rewrite take_app_le in Hsc by lia. by apply Hsc. }
  assert (¬ m < 2) as Hm.
  { specialize (Hsc (length sc) o m). rewrite take_app_length in Hsc.
    rewrite Hrb in Hsc. apply Hsc. by rewrite list_lookup_middle. }
  split.
  - rewrite running_best_snoc, Hrb.
    assert (Qltb m 2 = false) as ->; [|done].
    by apply Qltb_ge, Qnot_lt_le.
  - intros output n. rewrite elem_of_app, list_elem_of_singleton.
    intros [Hin|[= -> ->]]; [by apply (Hall output)|done].
Qed.

End SearchFacts.



(** C7. When the rule and the fidelity constraint answer on every
    frame, the loop runs to its end, [best] holds the value
    [running_best] gives for the candidates in the order they were
    scored, and when none of them scored strictly below the value
    [best] held at that time, [treeSearch] returns [NOOP] and the input
    frame. *)
Theorem treeSearch_keeps_input {G : Generators} {F : Fidelity}
    (df : DataFrame) (costFn : Constraint) (operations : list OperationKind)
    (evaluations : nat) (inflation editCost : Q)
    (similarity : gmap string string) (word2vec : Word2Vec)
    (ce : Constraint) :
  generators_CellEdit df similarity word2vec = Ok ce →
  (∀ d, ∃ v, qfn costFn d = Ok v) →
  (∀ d, ∃ v, qfn ce d = Ok v) →
  ∃ st,
    treeSearch_run (qfn ce) df costFn operations evaluations inflation editCost
      = Ok st ∧
    best_value st = running_best (scored st) ∧
    (never_improved (scored st) →
     treeSearch df costFn operations evaluations inflation editCost
       similarity word2vec = Ok (NOOP, df)).
Proof.
  intros Hce Hc He.
  destruct (treeSearch_run_total costFn (qfn ce) operations inflation editCost
              df evaluations Hc He) as [st Hrun].
  exists st. split; [done|].
  split; [by eapply treeSearch_best_running|].
  intros Hnever. apply never_improved_sentinel in Hnever as [_ Hall].
  unfold treeSearch. rewrite Hce. simpl.
  by eapply treeSearch_from_keeps_input.
Qed.

Lemma treeSearch_keeps_input_witness :
  generators_CellEdit (Fidelity := toy_fidelity) cities ∅ tt
    = Ok (CellEdit (L := stub_library) cities ∅) ∧
  (∀ d, ∃ v, qfn never d = Ok v) ∧
  (∀ d, ∃ v, qfn (CellEdit (L := stub_library) cities ∅) d = Ok v) ∧
  ∃ st,
    treeSearch_run (G := toy_generators)
      (qfn (CellEdit (L := stub_library) cities ∅))
      cities never [ToyFail; ToyDropLast] 2 5 1 = Ok st ∧
    length (scored st) = 2%nat ∧
    never_improved (scored st) ∧
    treeSearch (G := toy_generators) (F := toy_fidelity) cities never [ToyFail; ToyDropLast] 2 5 1
      ∅ tt = Ok (ToyNoop, cities).
Proof.
  assert (∀ d, ∃ v, qfn never d = Ok v) as Hc.
  { intros d.
    destruct (constraint_object_length (L := stub_library) never d)
      as (v & Hv & _); [constructor|eauto]. }
  assert (∀ d, ∃ v, qfn (CellEdit (L := stub_library) cities ∅) d = Ok v) as He.
  { intros d.
    destruct (constraint_object_length (L := stub_library)
                (CellEdit (L := stub_library) cities ∅) d)
      as (v & Hv & _); [constructor|eauto]. }
  split; [reflexivity|]. split; [exact Hc|]. split; [exact He|].
  destruct (treeSearch_keeps_input (G := toy_generators) (F := toy_fidelity)
              cities never [ToyFail; ToyDropLast] 2 5 1 ∅ tt
              (CellEdit (L := stub_library) cities ∅) eq_refl Hc He)
    as (st & Hrun & _ & Hkeep).
  eassert (treeSearch_run (G := toy_generators)
             (qfn (CellEdit (L := stub_library) cities ∅))
             cities never [ToyFail; ToyDropLast] 2 5 1 = Ok _) as Hrun0
    by (vm_compute; reflexivity).
  rewrite Hrun0 in Hrun. injection Hrun as <-.
  eexists. split; [exact Hrun0|]. split; [reflexivity|].
  match type of Hkeep with
  | ?P → _ => assert P as Hnever
  end.
  { intros k output n Hk.
    destruct k as [|[|k]]; simpl in Hk; [| |done];
      injection Hk as <- <-; cbv; discriminate. }
  split; [exact Hnever|]. apply Hkeep. exact Hnever.
Defined.

Lemma constraint_object_scores {L : Library} {LB : LibraryBounds L} c df v :
  constraint_object c → qfn c df = Ok v → quality_vector df v.
Proof.
  intros Hc Hv. destruct (constraint_object_quality c df Hc) as (v' & Hv' & Hq).
  congruence.
Qed.

(** C8 as stated fails. With the weight [edit = 1] of the default
    configuration, a rule every row violates and an operation that drops
    a row, the candidate scores exactly 2.0, which is not below 2.0, and
    the initial entry stays; with the weight 2 the same candidate scores
    3.0, above the initial value. *)
Lemma sentinel_score_reached :
  (∃ st output n,
     treeSearch_run (G := toy_generators)
       (qfn (CellEdit (L := stub_library) cities ∅))
       cities never [ToyDropLast] 1 5 1 = Ok st ∧
     scored st = [(output, n)] ∧ n == 2 ∧ ¬ n < 2 ∧
     best st = (2, ToyNoop, cities)) ∧
  (∃ st output n,
     treeSearch_run (G := toy_generators)
       (qfn (CellEdit (L := stub_library) cities ∅))
       cities never [ToyDropLast] 1 5 2 = Ok st ∧
     scored st = [(output, n)] ∧ n == 3 ∧ 2 < n ∧
     best st = (2, ToyNoop, cities)).
Proof.
  split.
  - eexists _, _, _. split; [vm_compute; reflexivity|].
    split; [reflexivity|]. split; [reflexivity|]. split; [|reflexivity].
    unfold Qlt. simpl. lia.
  - eexists _, _, _. split; [vm_compute; reflexivity|].
    split; [reflexivity|]. split; [reflexivity|]. split; [|reflexivity].
    unfold Qlt. simpl. lia.
Qed.

(** C8, amended. When the rule and the fidelity function give scores
    in [0,1] and the weight [editCost] lies between 0 and 1, every
    candidate the search scores has a value [n] between 0 and 2.0, the
    value [best] starts with. [best] ends no larger than [n] and no larger than 2.0; it has left
    its initial entry when [n] is strictly below 2.0 and still holds
    [(2.0, NOOP, df)] when no scored value is strictly below 2.0. In
    every step of the loop that scores a candidate, the candidate
    becomes the entry of [best] when its value is strictly below the one
    [best] holds, and [best] is left as it is otherwise. *)
Theorem scored_at_most_sentinel {G : Generators}
    (costFn : Constraint) (efn : DataFrame → exc Vec)
    (operations : list OperationKind)
    (inflation editCost : Q) (df : DataFrame) (evaluations : nat)
    (st : SearchState) (output : DataFrame) (n : Q) :
  (∀ d v, qfn costFn d = Ok v → quality_vector d v) →
  (∀ d v, efn d = Ok v → quality_vector d v) →
  0 <= editCost → editCost <= 1 →
  treeSearch_run efn df costFn operations evaluations inflation editCost
    = Ok st →
  (output, n) ∈ scored st →
  0 <= n ∧ n <= 2 ∧
  best_value st <= n ∧ best_value st <= 2 ∧
  (n < 2 → best_value st < 2) ∧
  ((∀ o m, (o, m) ∈ scored st → ¬ m < 2) → best st = (2, NOOP, df)) ∧
  (∀ op frame opbranch s s' o m,
     treeSearch_branch costFn efn editCost op frame opbranch s = Ok s' →
     scored s' = scored s ++ [(o, m)] →
     (m < best_value s → best s' = (m, op_mul op opbranch, o)) ∧
     (¬ m < best_value s → best s' = best s)).
Proof.
  intros Hc Hf Hw0 Hw1 Hrun Hin.
  destruct (treeSearch_scored _ _ _ _ _ _ _ _ _ _ Hrun Hin) as [_ Hn].
  destruct (treeSearch_best_least _ _ _ _ _ _ _ _ Hrun) as [H2 Hleast].
  assert (0 <= n <= 1 + editCost) as [? ?].
  { apply (combined_score_bounds costFn efn editCost output n);
      [apply Hc | apply Hf | done | done]. }
  pose proof (Hleast output n Hin) as Hbn.
  split; [done|]. split; [lra|]. split; [done|].
  split; [done|]. split; [intros; lra|]. split.
  { intros Hno.
    by destruct (treeSearch_from_keeps_input _ _ _ _ _ _ _ _ Hrun Hno). }
  intros op frame opbranch s s' o m Hb Hsc.
  apply treeSearch_branch_cases in Hb
    as [->|[[_ ->]|(o' & m' & _ & _ & _ & _ & ->)]]; cbn [scored best] in Hsc.
  - apply (f_equal length) in Hsc. rewrite length_app in Hsc. simpl in Hsc. lia.
  - apply (f_equal length) in Hsc. rewrite length_app in Hsc. simpl in Hsc. lia.
  - apply app_inj_tail in Hsc as [_ [= -> ->]]. cbn [best]. split.
    + intros Hlt. apply Qltb_lt in Hlt. by rewrite Hlt.
    + intros Hge. apply Qnot_lt_le, Qltb_ge in Hge. by rewrite Hge.
Qed.

Lemma scored_at_most_sentinel_witness :
  ∃ st output n,
    (∀ d v, qfn never d = Ok v → quality_vector d v) ∧
    (∀ d v, qfn (Shape 4 2) d = Ok v → quality_vector d v) ∧
    0 <= 1 # 2 ∧ 1 # 2 <= 1 ∧
    treeSearch_run (G := toy_generators) (qfn (Shape 4 2))
      cities never [ToyDropLast; ToyKeep] 1 5 (1 # 2) = Ok st ∧
    (output, n) ∈ scored st ∧
    0 <= n ∧ n <= 2 ∧
    best_value st <= n ∧ best_value st <= 2 ∧
    (n < 2 → best_value st < 2) ∧
    ((∀ o m, (o, m) ∈ scored st → ¬ m < 2) → best st = (2, ToyNoop, cities)) ∧
    (∀ op frame opbranch (s s' : SearchState (G := toy_generators)) o m,
       treeSearch_branch never (qfn (Shape 4 2)) (1 # 2)
         op frame opbranch s = Ok s' →
       scored s' = scored s ++ [(o, m)] →
       (m < best_value s → best s' = (m, op_mul op opbranch, o)) ∧
       (¬ m < best_value s → best s' = best s)).
Proof.
  assert (∀ d v, qfn never d = Ok v → quality_vector d v) as Hc.
  { intros d v. apply (constraint_object_scores (LB := stub_library_bounds)).
    constructor. }
  assert (∀ d v, qfn (Shape 4 2) d = Ok v → quality_vector d v) as Hf.
  { intros d v. apply (constraint_object_scores (LB := stub_library_bounds)).
    constructor. }
  assert (0 <= 1 # 2) as Hw0 by (unfold Qle; simpl; lia).
  assert (1 # 2 <= 1) as Hw1 by (unfold Qle; simpl; lia).
  eexists _, _, _. split; [exact Hc|]. split; [exact Hf|].
  split; [exact Hw0|]. split; [exact Hw1|].
  split; [vm_compute; reflexivity|]. split; [apply list_elem_of_here|].
  eapply (scored_at_most_sentinel (G := toy_generators)
            never _ [ToyDropLast; ToyKeep] 5 (1 # 2) cities 1);
    [exact Hc | exact Hf | exact Hw0 | exact Hw1 | vm_compute; reflexivity
    | apply list_elem_of_here].
Defined.

(** C9 as stated fails: an operation that gives the input back produces
    a table whose hash is in the visited set from the start, and the
    search scores it, in the first round and again in the second. *)
Lemma visited_table_scored_again :
  ∃ st n,
    treeSearch_run (G := toy_generators)
      (qfn (CellEdit (L := stub_library) cities ∅))
      cities never [ToyKeep] 2 5 1 = Ok st ∧
    hash_str (Generators := toy_generators) cities
      ∈ branch_hash (treeSearch_init (G := toy_generators) cities) ∧
    scored st = [(cities, n); (cities, n)].
Proof.
  eexists _, _. split; [vm_compute; reflexivity|].
  split; [|reflexivity]. simpl. set_solver.
Qed.

(** C9, amended. The visited set holds the hash of the original table
    and nothing else until the search ends; it is never consulted: in
    the state a run has reached, an operation that is not in the
    bad-operation cache, applies to the current frame and yields a table
    with rows and columns has that table scored, whether or not the
    hash of the table is in the set. *)
Theorem branch_hash_never_consulted {G : Generators}
    (costFn : Constraint) (efn : DataFrame → exc Vec)
    (operations : list OperationKind) (inflation editCost : Q)
    (df : DataFrame) (evaluations : nat) (st : SearchState) :
  treeSearch_run efn df costFn operations evaluations inflation editCost
    = Ok st →
  branch_hash st = {[hash_str df]} ∧
  ∀ op frame s opbranch output n,
    op_name opbranch ∉ bad_op_cache s →
    op_run opbranch frame = Ok output →
    pruningRules output = false →
    combined_score costFn efn editCost output = Ok n →
    ∃ s',
      treeSearch_branch costFn efn editCost op frame opbranch s = Ok s' ∧
      scored s' = scored s ++ [(output, n)] ∧
      branch_hash s' = branch_hash s.
Proof.
  intros Hrun. split; [by eapply treeSearch_branch_hash|].
  intros op frame s opbranch output n Hbad Hop Hp Hn. unfold treeSearch_branch.
  rewrite decide_False by done. rewrite Hop, Hp, Hn. simpl. eauto.
Qed.

Lemma branch_hash_never_consulted_witness :
  ∃ st,
    treeSearch_run (G := toy_generators)
      (qfn (CellEdit (L := stub_library) cities ∅))
      cities never [ToyKeep] 2 5 1 = Ok st ∧
    branch_hash st = {[hash_str (Generators := toy_generators) cities]} ∧
    ∀ op frame (s : SearchState (G := toy_generators)) opbranch output n,
      op_name opbranch ∉ bad_op_cache s →
      op_run opbranch frame = Ok output →
      pruningRules output = false →
      combined_score never (qfn (CellEdit (L := stub_library) cities ∅)) 1
        output = Ok n →
      ∃ s',
        treeSearch_branch never (qfn (CellEdit (L := stub_library) cities ∅)) 1
          op frame opbranch s = Ok s' ∧
        scored s' = scored s ++ [(output, n)] ∧
        branch_hash s' = branch_hash s.
Proof.
  eexists. split; [vm_compute; reflexivity|].
  apply (branch_hash_never_consulted (G := toy_generators)
           never _ [ToyKeep] 5 1 cities 2).
  vm_compute; reflexivity.
Defined.

Lemma toy_depth_nonneg (o : toy_op) : 0 <= toy_depth o.
Proof. induction o; simpl; lra. Qed.

(** C10. With a tolerance [inflation] of at least one, operation depths
    that are not negative and scores that are not negative, the test of
    line 152 compares [best.value - op.depth] of the current best with
    [best.value * inflation] and fails: however many rounds have run,
    none was skipped and the next one is not skipped either. *)
Theorem prune_by_inflation_never_taken {G : Generators}
    (costFn : Constraint) (efn : DataFrame → exc Vec)
    (operations : list OperationKind) (inflation editCost : Q)
    (df : DataFrame) (evaluations : nat) (st : SearchState) :
  1 <= inflation →
  (∀ op, 0 <= op_depth op) →
  (∀ output n, combined_score costFn efn editCost output = Ok n → 0 <= n) →
  treeSearch_run efn df costFn operations evaluations inflation editCost
    = Ok st →
  prune_by_inflation inflation st =
    Qltb (best_value st * inflation) (best_value st - op_depth (best_op st)) ∧
  prune_by_inflation inflation st = false ∧
  skipped st = 0%nat ∧
  treeSearch_round costFn efn operations inflation editCost evaluations st =
    (costEval ← qfn costFn (best_frame st);
     for_each (getAllOperations evaluations (best_frame st) costFn operations)
       (treeSearch_branch costFn efn editCost (best_op st) (best_frame st)) st).
Proof.
  intros Hi Hd Hn Hrun.
  set (P := λ st, 0 <= best_value st ∧ skipped st = 0%nat).
  assert (P st) as [Hv Hs].
  { apply (treeSearch_run_inv costFn efn operations inflation editCost
             P df evaluations st); [|clear st Hrun|done].
    - split; [|done]. unfold best_value. simpl. lra.
    - intros i s s' [Hv Hs].
      apply (treeSearch_round_inv costFn efn operations inflation editCost
               P i s s'); [done| |].
      + by rewrite prune_by_inflation_false.
      + intros opbranch t t' [Htv Hts] Hb.
        apply treeSearch_branch_cases in Hb
          as [->|[[_ ->]|(o & m & _ & _ & Hp & Hm & ->)]]; [done|done|].
        split; [|done]. unfold best_value at 1. cbn [best].
        destruct (Qltb m (best_value t)); [|done]. simpl. by eapply Hn. }
  pose proof (prune_by_inflation_false inflation st Hi (Hd _) Hv) as Hfalse.
  split; [|split; [done|split; [done|]]].
  - unfold prune_by_inflation, best_value, best_op.
    by destruct (best st) as [[value op] frame].
  - unfold treeSearch_round, best_op, best_frame. rewrite Hfalse.
    by destruct (best st) as [[value op] frame].
Qed.

Lemma prune_by_inflation_never_taken_witness :
  ∃ st,
    1 <= 5 ∧
    (∀ op, 0 <= op_depth (Generators := toy_generators) op) ∧
    (∀ output n,
       combined_score never (qfn (CellEdit (L := stub_library) cities ∅)) 1
         output = Ok n → 0 <= n) ∧
    treeSearch_run (G := toy_generators)
      (qfn (CellEdit (L := stub_library) cities ∅))
      cities never [ToyKeep; ToyFail; ToyDropLast] 3 5 1 = Ok st ∧
    prune_by_inflation 5 st =
      Qltb (best_value st * 5) (best_value st - op_depth (best_op st)) ∧
    prune_by_inflation 5 st = false ∧
    skipped st = 0%nat ∧
    treeSearch_round (G := toy_generators) never
      (qfn (CellEdit (L := stub_library) cities ∅))
      [ToyKeep; ToyFail; ToyDropLast] 5 1 3 st =
      (costEval ← qfn never (best_frame st);
       for_each (getAllOperations (Generators := toy_generators) 3
                   (best_frame st) never [ToyKeep; ToyFail; ToyDropLast])
         (treeSearch_branch never (qfn (CellEdit (L := stub_library) cities ∅)) 1
            (best_op st) (best_frame st)) st).
Proof.
  assert (1 <= 5) as Hi by (unfold Qle; simpl; lia).
  assert (∀ output n,
            combined_score never (qfn (CellEdit (L := stub_library) cities ∅)) 1
              output = Ok n → 0 <= n) as Hn.
  { intros output n Hn.
    apply (combined_score_bounds never
             (qfn (CellEdit (L := stub_library) cities ∅)) 1 output n) in Hn
      as [? _]; [done| | |unfold Qle; simpl; lia].
    - intros v. apply (constraint_object_scores (LB := stub_library_bounds)).
      constructor.
    - intros v. apply (constraint_object_scores (LB := stub_library_bounds)).
      constructor. }
  eexists. split; [exact Hi|]. split; [exact toy_depth_nonneg|].
  split; [exact Hn|]. split; [vm_compute; reflexivity|].
  apply (prune_by_inflation_never_taken (G := toy_generators)
           never (qfn (CellEdit (L := stub_library) cities ∅))
           [ToyKeep; ToyFail; ToyDropLast] 5 1 cities 3);
    [exact Hi | exact toy_depth_nonneg | exact Hn | vm_compute; reflexivity].
Defined.

(** * Further properties of the code *)

(** ** Predicate *)

Lemma for_each_raises {X St} (xs : list X) (body : X → St → exc St) x :
  x ∈ xs → (∀ s, ∃ e, body x s = Raise e) →
  ∀ s, ∃ e, for_each xs body s = Raise e.
Proof.
  intros Hx Hbody. induction xs as [|y xs IH]; intros s.
  - by apply elem_of_nil in Hx.
  - simpl. destruct (body y s) as [s'|e] eqn:Hy; [|eauto]. simpl.
    apply elem_of_cons in Hx as [->|Hx]; [|by apply IH].
    destruct (Hbody s) as [e He]. congruence.
Qed.

Lemma getitem_length df c col : getitem df c = Ok col → length col = nrows df.
Proof.
  unfold getitem. intros H. apply bind_Ok in H as (j & _ & H).
  by apply mapM_length in H.
Qed.

(** The loop of [Predicate._qfn] stops with the exception of the test. *)
Lemma Predicate__qfn_raises attr expr df col i v e :
  getitem df attr = Ok col → col !! i = Some v → v ≠ VNone →
  expr v = Raise e →
  ∃ e', Predicate__qfn attr expr df = Raise e'.
Proof.
  intros Hcol Hi Hv He. unfold Predicate__qfn, for_range.
  apply (for_each_raises _ _ i).
  - apply elem_of_seq. apply lookup_lt_Some in Hi.
    apply getitem_length in Hcol. lia.
  - intros s. unfold Predicate_loop. rewrite Hcol. simpl.
    unfold series_iloc. rewrite Hi. simpl. rewrite decide_False by done.
    rewrite He. simpl. eauto.
Qed.

(** X1. On a frame that has the column, with a test that answers on
    every value that is not [None], [Predicate] scores a row 0.01 when
    its value is [None], 0 when the test holds and 1 when it does not. *)
Theorem Predicate_scores attr expr (f : value → bool) df col :
  getitem df attr = Ok col →
  (∀ v, v ∈ col → v ≠ VNone → expr v = Ok (f v)) →
  Predicate__qfn attr expr df = Ok (Predicate_score f <$> col) ∧
  qfn (Predicate attr expr) df = Ok (Predicate_score f <$> col).
Proof.
  intros Hcol Hexpr. pose proof (getitem_length _ _ _ Hcol) as Hlen.
  cut (Predicate__qfn attr expr df = Ok (Predicate_score f <$> col)).
  { intros H. split; [done|]. simpl. unfold Constraint_qfn. by rewrite H. }
  unfold Predicate__qfn.
  destruct (for_range_total
              (λ i (w : Vec),
                 length w = nrows df ∧
                 (∀ j, (j < i)%nat → w !! j = (Predicate_score f <$> col) !! j) ∧
                 (∀ j, (i ≤ j < nrows df)%nat → w !! j = Some 1))
              (nrows df) (Predicate_loop attr expr df) (np_ones (nrows df)))
    as (w & -> & Hl & Hw & _).
  - split; [apply np_ones_length|]. split; [lia|].
    intros j Hj. apply lookup_replicate. split; [done|lia].
  - intros i w Hi (Hl & Hlow & Hhigh).
    destruct (lookup_lt_is_Some_2 col i) as [v Hv]; [lia|].
    assert ((Predicate_score f <$> col) !! i = Some (Predicate_score f v)) as Hsc
      by by rewrite list_lookup_fmap, Hv.
    assert (∀ x, length (<[i := x]> w) = nrows df ∧
                 (∀ j, (j < S i)%nat →
                       (j = i → Some x = (Predicate_score f <$> col) !! j) →
                       <[i := x]> w !! j = (Predicate_score f <$> col) !! j) ∧
                 (∀ j, (S i ≤ j < nrows df)%nat → <[i := x]> w !! j = Some 1))
      as Hins.
    { intros x. split; [by rewrite length_insert|]. split.
      - intros j Hj Hx. destruct (decide (j = i)) as [->|Hne].
        + rewrite list_lookup_insert_eq by lia. by apply Hx.
        + rewrite list_lookup_insert_ne by done. apply Hlow. lia.
      - intros j Hj. rewrite list_lookup_insert_ne by lia. apply Hhigh. lia. }
    unfold Predicate_loop. rewrite Hcol. simpl. unfold series_iloc.
    rewrite Hv. simpl.
    destruct (decide (v = VNone)) as [Hnone|Hnone].
    + eexists; split; [done|]. destruct (Hins (1 # 100)) as (? & Hlo & ?).
      split; [done|]. split; [|done]. intros j Hj. apply Hlo; [done|].
      intros ->. rewrite Hsc. unfold Predicate_score. by rewrite decide_True.
    + rewrite (Hexpr v) by (done || by eapply list_elem_of_lookup_2).
      simpl. destruct (f v) eqn:Hf.
      * eexists; split; [done|]. destruct (Hins 0) as (? & Hlo & ?).
        split; [done|]. split; [|done]. intros j Hj. apply Hlo; [done|].
        intros ->. rewrite Hsc. unfold Predicate_score.
        by rewrite decide_False, Hf.
      * eexists; split; [done|]. split; [done|]. split.
        -- intros j Hj. destruct (decide (j = i)) as [->|Hne].
           ++ rewrite Hsc. unfold Predicate_score.
              rewrite decide_False, Hf by done. apply Hhigh. lia.
           ++ apply Hlow. lia.
        -- intros j Hj. apply Hhigh. lia.
  - f_equal. apply list_eq. intros j.
    destruct (decide (j < nrows df)%nat) as [Hj|Hj]; [by apply Hw|].
    rewrite !lookup_ge_None_2; [done|rewrite length_fmap; lia|lia].
Qed.

Lemma Predicate_scores_witness :
  ∃ col,
    getitem cities "state" = Ok col ∧
    (∀ v, v ∈ col → v ≠ VNone →
          (λ x, Ok (bool_decide (x ∈ [VStr "NY"; VStr "CA"]))) v
          = Ok (bool_decide (v ∈ [VStr "NY"; VStr "CA"]))) ∧
    Predicate__qfn "state" (λ x, Ok (bool_decide (x ∈ [VStr "NY"; VStr "CA"])))
      cities
    = Ok (Predicate_score (λ v, bool_decide (v ∈ [VStr "NY"; VStr "CA"])) <$> col) ∧
    qfn (Predicate "state" (λ x, Ok (bool_decide (x ∈ [VStr "NY"; VStr "CA"]))))
      cities
    = Ok (Predicate_score (λ v, bool_decide (v ∈ [VStr "NY"; VStr "CA"])) <$> col).
Proof.
  eexists. split; [reflexivity|]. split; [reflexivity|].
  apply (Predicate_scores "state" _
           (λ v, bool_decide (v ∈ [VStr "NY"; VStr "CA"]))); reflexivity.
Defined.

(** X2. One value on which the test raises costs the whole column: when
    the test raises on the value of some row (a value other than
    [None]), every row of the frame scores 1, also the rows that pass. *)
Theorem Predicate_test_failure attr expr df col i v e :
  getitem df attr = Ok col → col !! i = Some v → v ≠ VNone →
  expr v = Raise e →
  qfn (Predicate attr expr) df = Ok (np_ones (nrows df)).
Proof.
  intros Hcol Hi Hv He.
  destruct (Predicate__qfn_raises attr expr df col i v e) as [e' He']; try done.
  simpl. unfold Constraint_qfn. by rewrite He'.
Qed.

Lemma Predicate_test_failure_witness :
  ∃ col,
    getitem people "age" = Ok col ∧ col !! 0%nat = Some (VInt 31) ∧
    VInt 31 ≠ VNone ∧
    (λ x, match x with VInt _ => Raise TypeError | _ => Ok true end) (VInt 31)
      = Raise TypeError ∧
    qfn (Predicate "age"
           (λ x, match x with VInt _ => Raise TypeError | _ => Ok true end))
      people = Ok (np_ones (nrows people)).
Proof.
  eexists. split; [reflexivity|]. split; [reflexivity|]. split; [discriminate|].
  split; [reflexivity|].
  eapply (Predicate_test_failure "age" _ people _ 0%nat (VInt 31) TypeError);
    [reflexivity | reflexivity | discriminate | reflexivity].
Defined.

(** A loop whose body always raises returns its initial state on an
    empty range and raises otherwise. *)
Lemma for_range_all_raise {St} n (body : nat → St → exc St) s :
  (∀ i s, ∃ e, body i s = Raise e) →
  for_range n body s = Ok s ∧ n = 0%nat ∨ ∃ e, for_range n body s = Raise e.
Proof.
  intros Hbody. destruct n as [|n]; [by left|]. right.
  unfold for_range. simpl. destruct (Hbody 0%nat s) as [e ->]. eauto.
Qed.

(** X3. When the frame lacks the column of a [Predicate], every row
    scores 1 (and an empty frame gets the empty vector). *)
Theorem Predicate_missing_column attr expr df e :
  column_index (columns df) attr = Raise e →
  qfn (Predicate attr expr) df = Ok (np_ones (nrows df)).
Proof.
  intros Hc. simpl. unfold Constraint_qfn, Predicate__qfn.
  destruct (for_range_all_raise (nrows df) (Predicate_loop attr expr df)
              (np_ones (nrows df))) as [[-> _]|[e' ->]]; [|done..].
  intros i s. unfold Predicate_loop, getitem. rewrite Hc. simpl. eauto.
Qed.

Lemma Predicate_missing_column_witness :
  column_index (columns cities) "zip" = Raise KeyError ∧
  qfn (Predicate "zip" (λ _, Ok true)) cities = Ok (np_ones (nrows cities)).
Proof.
  split; [reflexivity|].
  apply (Predicate_missing_column "zip" _ cities KeyError). reflexivity.
Defined.

(** X4. [Pattern] and [Date] on a column that holds a number: [len(x)]
    and [x.strip()] raise on it, outside the [try] of the check, so
    every row of the frame scores 1 whatever the pattern. *)
Theorem Pattern_Date_number {L : Library} attr pattern df col (z : Z) :
  getitem df attr = Ok col → VInt z ∈ col →
  qfn (Pattern attr pattern) df = Ok (np_ones (nrows df)) ∧
  qfn (Date attr pattern) df = Ok (np_ones (nrows df)).
Proof.
  intros Hcol Hz. apply list_elem_of_lookup in Hz as [i Hi].
  split.
  - destruct (Predicate__qfn_raises attr (Pattern_check pattern) df col i
                (VInt z) TypeError) as [e' He']; try done.
    simpl. unfold Constraint_qfn. by rewrite He'.
  - destruct (Predicate__qfn_raises attr (Date_check pattern) df col i
                (VInt z) AttributeError) as [e' He']; try done.
    simpl. unfold Constraint_qfn. by rewrite He'.
Qed.

Lemma Pattern_Date_number_witness :
  ∃ col,
    getitem people "age" = Ok col ∧ VInt 31 ∈ col ∧
    qfn (Pattern (L := stub_library) "age" "%Y") people
      = Ok (np_ones (nrows people)) ∧
    qfn (Date (L := stub_library) "age" "%Y") people
      = Ok (np_ones (nrows people)).
Proof.
  eexists. split; [reflexivity|]. split; [apply list_elem_of_here|].
  eapply (Pattern_Date_number (L := stub_library) "age" _ people _ 31);
    [reflexivity | apply list_elem_of_here].
Defined.

(** ** FD *)

(** X5. When the frame lacks a source or a target column of an [FD],
    every row scores 1 (and an empty frame gets the empty vector). *)
Theorem FD_missing_column source target df :
  (∃ e, getitems df source = Raise e) ∨ (∃ e, getitems df target = Raise e) →
  qfn (FD source target) df = Ok (np_ones (nrows df)).
Proof.
  intros Hmiss. simpl. unfold Constraint_qfn, FD__qfn.
  destruct (for_range_all_raise (nrows df) (FD_loop1 source target df)
              (∅, 0%nat)) as [[-> HN]|[e' ->]]; [| |done].
  - intros i [kv norm]. unfold FD_loop1.
    destruct (getitems df source) as [dS|eS] eqn:HS; simpl; [|eauto].
    destruct (tuple_iloc i dS i) as [s|]; simpl; [|eauto].
    destruct Hmiss as [[e He]|[e He]]; [done|]. rewrite He. simpl. eauto.
  - simpl. by rewrite HN.
Qed.

Lemma FD_missing_column_witness :
  ((∃ e, getitems cities ["city"] = Raise e) ∨
   (∃ e, getitems cities ["zip"] = Raise e)) ∧
  qfn (FD ["city"] ["zip"]) cities = Ok (np_ones (nrows cities)).
Proof.
  assert ((∃ e, getitems cities ["city"] = Raise e) ∨
          (∃ e, getitems cities ["zip"] = Raise e)) as H
    by (right; exists KeyError; reflexivity).
  split; [exact H|]. apply (FD_missing_column ["city"] ["zip"] cities H).
Defined.

(** X6. An [FD] that can be scored never reports the maximal violation:
    on a frame that has its columns and no float NaN in a source column
    every score is at least 0 and strictly below 1. *)
Theorem FD_scores_below_one source target df dS dT :
  getitems df source = Ok dS → getitems df target = Ok dT →
  nan_free (values dS) →
  ∃ v, qfn (FD source target) df = Ok v ∧
       Forall (λ x, 0 <= x ∧ x < 1) v.
Proof.
  intros HdS HdT Hnan.
  exists (FD_scores (zip (values dS) (boxed_rows (values dT)))). split.
  { simpl. unfold Constraint_qfn.
    by rewrite (FD__qfn_scores source target df dS dT HdS HdT Hnan). }
  destruct (FD_loop1_run source target df dS dT HdS HdT Hnan)
    as (kv & norm & _ & Hinv).
  unfold FD_scores. apply Forall_fmap, Forall_forall. intros p Hp. simpl.
  destruct (FD_inv_group dS dT kv norm p Hinv Hp) as (ts & _ & Hk & H1 & Hm).
  unfold FD_score. rewrite (FD_inv_worst dS dT kv norm Hinv), <- Hk.
  assert (0 < inject_Z (Z.of_nat norm)) as Hpos.
  { change 0 with (inject_Z 0). rewrite <- Zlt_Qlt. lia. }
  split.
  - apply Qle_shift_div_l; [done|]. rewrite Qmult_0_l.
    change 0 with (inject_Z 0). rewrite <- Zle_Qle. lia.
  - apply Qlt_shift_div_r; [done|]. rewrite Qmult_1_l.
    rewrite <- Zlt_Qlt. lia.
Qed.

Lemma FD_scores_below_one_witness :
  ∃ dS dT,
    getitems cities ["city"] = Ok dS ∧ getitems cities ["state"] = Ok dT ∧
    nan_free (values dS) ∧
    ∃ v, qfn (FD ["city"] ["state"]) cities = Ok v ∧
         Forall (λ x, 0 <= x ∧ x < 1) v.
Proof.
  eexists _, _. split; [reflexivity|]. split; [reflexivity|].
  split; [vm_compute; repeat constructor|].
  eapply (FD_scores_below_one ["city"] ["state"] cities);
    [reflexivity | reflexivity | vm_compute; repeat constructor].
Defined.

(** ** CellEdit *)

Section CellEditRows.
Context {L : Library}.

(** A cell changes the entry of its own row only. *)
Lemma CellEdit_cell_other source metric df p i j (v v' : Vec) k :
  CellEdit_cell source metric df p i j v = Ok v' → k ≠ i → v' !! k = v !! k.
Proof.
  unfold CellEdit_cell. intros H Hk.
  assert (∀ d, (x ← py_div d (inject_Z (Z.of_nat p));
                old ← np_getitem v i;
                Ok (<[i := x + old]> v)) = Ok v' → v' !! k = v !! k) as Hadd.
  { intros d Hd. apply bind_Ok in Hd as (x & _ & Hd).
    apply bind_Ok in Hd as (old & _ & Hd). inversion Hd; subst.
    by apply list_lookup_insert_ne. }
  apply bind_Ok in H as (c & _ & H). apply bind_Ok in H as (r & _ & H).
  apply bind_Ok in H as (cname & _ & H).
  destruct (decide (py_str c = py_str r)); [by inversion H|].
  destruct (decide (c = VNone)); [by inversion H|].
  destruct (_ && _); [by eapply Hadd|].
  destruct (_ && _); [by eapply Hadd|].
  apply bind_Ok in H as (m & _ & H).
  destruct (decide (m = "edit")); [by eapply Hadd|].
  destruct (decide (m = "jaccard")).
  { apply bind_Ok in H as (jac & _ & H). by eapply Hadd. }
  destruct (decide (m = "semantic")); [|by inversion H].
  destruct (decide _); by eapply Hadd.
Qed.

(** A cell that shows the text of the reference, or no value, adds
    nothing. *)
Lemma CellEdit_cell_untouched source metric df p i j (v v' : Vec) :
  row_untouched source df i →
  CellEdit_cell source metric df p i j v = Ok v' → v' = v.
Proof.
  unfold CellEdit_cell. intros Hrow H.
  apply bind_Ok in H as (c & Hc & H). apply bind_Ok in H as (r & Hr & H).
  apply bind_Ok in H as (cname & _ & H).
  destruct (Hrow j c r Hc Hr) as [Heq| ->].
  - rewrite decide_True in H by done. by inversion H.
  - destruct (decide (py_str VNone = py_str r)); [by inversion H|].
    rewrite decide_True in H by done. by inversion H.
Qed.

(** X7. Fidelity is free on rows left alone: when [CellEdit._qfn]
    returns for a candidate of the shape of the reference, a row whose
    cells each show the text of the reference, or no value at all,
    scores 0, whatever was done to the other rows. Emptying a cell to
    [None] costs nothing. *)
Theorem CellEdit_untouched_row source metric df (w : Vec) i :
  CellEdit__qfn source metric df = Ok w →
  (nrows source, ncols source) = (nrows df, ncols df) →
  (i < nrows df)%nat → row_untouched source df i →
  w !! i = Some 0.
Proof.
  unfold CellEdit__qfn. intros H Hshape Hi Hrow.
  rewrite bool_decide_eq_true_2 in H by done. simpl in H.
  cut (length w = nrows df ∧
       ∀ k, (k < nrows df)%nat → (nrows df ≤ k)%nat ∨ row_untouched source df k →
            w !! k = Some 0).
  { intros [_ Hw]. apply Hw; [done|by right]. }
  revert H.
  apply (for_range_inv
           (λ i' (w : Vec),
              length w = nrows df ∧
              ∀ k, (k < nrows df)%nat →
                   (i' ≤ k)%nat ∨ row_untouched source df k →
                   w !! k = Some 0)).
  - split; [apply np_zeros_length|]. intros k Hk _.
    apply lookup_replicate. split; [done|lia].
  - intros i' u u' Hi' [Hl Hu] Hinner.
    assert (length u' = length u ∧ (∀ k, k ≠ i' → u' !! k = u !! k) ∧
            (row_untouched source df i' → u' = u)) as (Hl' & Hother & Hsame).
    { revert Hinner.
      apply (for_each_inv
               (λ x : Vec, length x = length u ∧
                           (∀ k, k ≠ i' → x !! k = u !! k) ∧
                           (row_untouched source df i' → x = u))); [done|].
      intros j x x' _ (Hxl & Hxo & Hxs) Hcell. split; [|split].
      - apply CellEdit_cell_length in Hcell. congruence.
      - intros k Hk. rewrite (CellEdit_cell_other _ _ _ _ _ _ _ _ k Hcell Hk).
        by apply Hxo.
      - intros Hr. rewrite (CellEdit_cell_untouched _ _ _ _ _ _ _ _ Hr Hcell).
        by apply Hxs. }
    split; [congruence|]. intros k Hk Hcase.
    destruct (decide (k = i')) as [->|Hne].
    + destruct Hcase as [?|Hr]; [lia|]. rewrite (Hsame Hr).
      apply Hu; [done|]. by left.
    + rewrite (Hother k Hne). apply Hu; [done|].
      destruct Hcase as [?|?]; [left; lia|by right].
Qed.

(** X8. The reference scores itself 0 in every row, whatever the
    metrics, provided each of its rows has a cell for every column. *)
Theorem CellEdit_reference_zero source metric :
  rectangular source →
  CellEdit__qfn source metric source = Ok (np_zeros (nrows source)) ∧
  qfn (CellEdit source metric) source = Ok (np_zeros (nrows source)).
Proof.
  intros Hrect.
  cut (∀ m, CellEdit__qfn source m source = Ok (np_zeros (nrows source))).
  { intros H. split; [apply H|]. simpl. unfold Constraint_qfn. by rewrite H. }
  intros m. unfold CellEdit__qfn. rewrite bool_decide_eq_true_2 by done. simpl.
  destruct (for_range_total (λ _ (w : Vec), w = np_zeros (nrows source))
              (nrows source)
              (λ i, for_range (ncols source)
                      (CellEdit_cell source m source (ncols source) i))
              (np_zeros (nrows source))) as (w & -> & ->); [done| |done].
  intros i w Hi ->.
  destruct (for_range_total (λ _ (w : Vec), w = np_zeros (nrows source))
              (ncols source)
              (CellEdit_cell source m source (ncols source) i)
              (np_zeros (nrows source))) as (w & -> & ->); [done| |eauto].
  intros j w Hj ->. unfold CellEdit_cell, iloc.
  destruct (lookup_lt_is_Some_2 (values source) i) as [row Hrow]; [done|].
  rewrite Hrow. unfold rectangular in Hrect.
  rewrite Forall_lookup in Hrect. specialize (Hrect i row Hrow).
  destruct (lookup_lt_is_Some_2 row j) as [c Hc]; [lia|].
  unfold cell. rewrite Hc. simpl.
  destruct (lookup_lt_is_Some_2 (columns source) j) as [cname ->]; [done|].
  simpl. rewrite decide_True by done. eauto.
Qed.

End CellEditRows.

Lemma CellEdit_reference_zero_witness :
  rectangular cities ∧
  CellEdit__qfn (L := stub_library) cities ∅ cities
    = Ok (np_zeros (nrows cities)) ∧
  qfn (CellEdit (L := stub_library) cities ∅) cities
    = Ok (np_zeros (nrows cities)).
Proof.
  assert (rectangular cities) as H by (repeat constructor).
  split; [exact H|].
  split; [apply (CellEdit_reference_zero (L := stub_library) cities ∅ H)|].
  apply (CellEdit_reference_zero (L := stub_library) cities ∅ H).
Defined.

Lemma CellEdit_untouched_row_witness :
  ∃ w,
    CellEdit__qfn (L := stub_library) cities (CellEdit_metric cities ∅)
      cities_edited = Ok w ∧
    (nrows cities, ncols cities) = (nrows cities_edited, ncols cities_edited) ∧
    (2 < nrows cities_edited)%nat ∧
    row_untouched cities cities_edited 2 ∧
    w !! 2%nat = Some 0.
Proof.
  assert (row_untouched cities cities_edited 2) as Hrow.
  { intros [|[|j]] v r; simpl; intros [= <-] [= <-]; auto. }
  eexists. split; [vm_compute; reflexivity|]. split; [reflexivity|].
  split; [unfold nrows; simpl; lia|]. split; [exact Hrow|].
  eapply (CellEdit_untouched_row (L := stub_library) cities
            (CellEdit_metric cities ∅) cities_edited);
    [vm_compute; reflexivity | reflexivity | unfold nrows; simpl; lia
    | exact Hrow].
Defined.

(** ** The algebra of [+] and [*] on scores *)

Lemma zip_with_comm_Qeq (f : Q → Q → Q) (va vb : Vec) :
  (∀ x y, f x y == f y x) →
  Forall2 Qeq (zip_with f va vb) (zip_with f vb va).
Proof.
  intros Hf. revert vb. induction va as [|x va IH]; intros [|y vb]; simpl;
    constructor; auto.
Qed.

Section ScoreAlgebra.
Context {L : Library}.

(** The vector of a sum that was built. *)
Lemma Constraint_add_vector a b c df :
  constraint_object a → constraint_object b →
  Constraint_add a (PConstraint b) = Ok c →
  ∃ va vb, qfn a df = Ok va ∧ qfn b df = Ok vb ∧
           length va = nrows df ∧ length vb = nrows df ∧
           qfn c df = Ok (np_div (zip_with Qplus va vb) 2).
Proof.
  intros Ha Hb Hc.
  destruct (constraint_object_length a df Ha) as (va & Hva & Hla).
  destruct (constraint_object_length b df Hb) as (vb & Hvb & Hlb).
  apply Constraint_add_Ok in Hc as (?&?&?&?&_&_&_&_&_&_&->).
  exists va, vb. repeat (split; [done|]). simpl. rewrite Hva, Hvb. simpl.
  unfold np_add. by rewrite np_zip_same by congruence.
Qed.

(** The vector of a product of two constraints that was built. *)
Lemma Constraint_mul_vector a b c df :
  constraint_object a → constraint_object b →
  Constraint_mul a (PConstraint b) = Ok c →
  ∃ va vb, qfn a df = Ok va ∧ qfn b df = Ok vb ∧
           length va = nrows df ∧ length vb = nrows df ∧
           qfn c df = Ok (zip_with Qmax va vb).
Proof.
  intros Ha Hb Hc.
  destruct (constraint_object_length a df Ha) as (va & Hva & Hla).
  destruct (constraint_object_length b df Hb) as (vb & Hvb & Hlb).
  apply Constraint_mul_constraint_Ok in Hc as (?&?&?&?&_&_&_&_&_&_&->).
  exists va, vb. repeat (split; [done|]). simpl. rewrite Hva, Hvb. simpl.
  unfold np_maximum. by rewrite np_zip_same by congruence.
Qed.

(** An operand order can be swapped: the operands of a sum or product
    that was built carry [hint] and [hintParams]. *)
Lemma Constraint_add_swap a b c :
  Constraint_add a (PConstraint b) = Ok c →
  ∃ c', Constraint_add b (PConstraint a) = Ok c' ∧ hint c' = hint c.
Proof.
  intros Hc. apply Constraint_add_Ok in Hc
    as (h1 & h2 & p1 & p2 & Hh1 & Hh2 & Hp1 & Hp2 & Hhc & _).
  simpl in Hh2, Hp2. unfold get_hint in Hh2. unfold get_hintParams in Hp2.
  destruct (hint b) as [hb|] eqn:Ehb; [|done].
  destruct (hintParams b) as [pb|] eqn:Epb; [|done].
  inversion Hh2; inversion Hp2; subst.
  unfold Constraint_add. simpl. unfold get_hint, get_hintParams.
  rewrite Ehb, Epb, Hh1, Hp1. simpl. eexists; split; [done|].
  simpl. rewrite Hhc. f_equal. apply (comm_L (∪)).
Qed.

Lemma Constraint_mul_swap a b c :
  Constraint_mul a (PConstraint b) = Ok c →
  ∃ c', Constraint_mul b (PConstraint a) = Ok c' ∧ hint c' = hint c.
Proof.
  intros Hc. apply Constraint_mul_constraint_Ok in Hc
    as (h1 & h2 & p1 & p2 & Hh1 & Hh2 & Hp1 & Hp2 & Hhc & _).
  unfold Constraint_mul. simpl. unfold get_hint, get_hintParams.
  rewrite Hh1, Hh2, Hp1, Hp2. simpl. eexists; split; [done|].
  simpl. rewrite Hhc. f_equal. apply (comm_L (∪)).
Qed.

(** X9. [+] is commutative on scores and hints: when [a + b] is built so
    is [b + a], with the same hint and, on every frame, equal scores
    (the hint parameters can differ, since the right operand wins). *)
Theorem Constraint_add_comm a b c df :
  constraint_object a → constraint_object b →
  Constraint_add a (PConstraint b) = Ok c →
  ∃ c' v v',
    Constraint_add b (PConstraint a) = Ok c' ∧ hint c' = hint c ∧
    qfn c df = Ok v ∧ qfn c' df = Ok v' ∧ Forall2 Qeq v v'.
Proof.
  intros Ha Hb Hc.
  destruct (Constraint_add_swap a b c Hc) as (c' & Hc' & Hh).
  destruct (Constraint_add_vector a b c df Ha Hb Hc)
    as (va & vb & Hva & Hvb & _ & _ & Hv).
  destruct (Constraint_add_vector b a c' df Hb Ha Hc')
    as (vb' & va' & Hvb' & Hva' & _ & _ & Hv').
  assert (va' = va) as -> by congruence. assert (vb' = vb) as -> by congruence.
  eexists c', _, _. repeat (split; [done|]).
  unfold np_div. apply Forall2_fmap.
  eapply Forall2_impl; [apply (zip_with_comm_Qeq Qplus); intros; ring|].
  intros x y Hxy. simpl. by rewrite Hxy.
Qed.

(** X10. [+] is not an even average over more than two rules: in
    [(a + b) + d] a row scores [x/4 + y/4 + z/2] for the scores [x],
    [y], [z] of [a], [b], [d]; the rule added last weighs one half. *)
Theorem Constraint_add_nested_weights a b d ab abd df :
  constraint_object a → constraint_object b → constraint_object d →
  Constraint_add a (PConstraint b) = Ok ab →
  Constraint_add ab (PConstraint d) = Ok abd →
  ∃ va vb vd v,
    qfn a df = Ok va ∧ qfn b df = Ok vb ∧ qfn d df = Ok vd ∧
    qfn abd df = Ok v ∧ length v = nrows df ∧
    ∀ i x y z, va !! i = Some x → vb !! i = Some y → vd !! i = Some z →
      ∃ s, v !! i = Some s ∧ s == x / 4 + y / 4 + z / 2.
Proof.
  intros Ha Hb Hd Hab Habd.
  assert (constraint_object ab) as Hoab by exact (obj_add a b ab Ha Hb Hab).
  destruct (Constraint_add_vector a b ab df Ha Hb Hab)
    as (va & vb & Hva & Hvb & Hla & Hlb & Hvab).
  destruct (Constraint_add_vector ab d abd df Hoab Hd Habd)
    as (vab & vd & Hvab' & Hvd & Hlab & Hld & Hv).
  assert (vab = np_div (zip_with Qplus va vb) 2) as -> by congruence.
  exists va, vb, vd, (np_div (zip_with Qplus (np_div (zip_with Qplus va vb) 2) vd) 2).
  repeat (split; [done|]). split.
  { unfold np_div. rewrite !length_map, !length_zip_with, !length_map,
      !length_zip_with. lia. }
  intros i x y z Hx Hy Hz. unfold np_div.
  rewrite list_lookup_fmap, lookup_zip_with, list_lookup_fmap,
    lookup_zip_with, Hx. simpl. rewrite Hy. simpl. rewrite Hz. simpl.
  eexists; split; [done|]. field.
Qed.

Lemma Qmax_same (x : Q) : Qmax x x = x.
Proof. unfold Qmax, GenericMinMax.gmax. by destruct (x ?= x). Qed.

(** X11. [*] on two constraints is commutative on scores and hints, and
    a constraint times itself scores as the constraint does. *)
Theorem Constraint_mul_comm_idem a b c df :
  constraint_object a → constraint_object b →
  Constraint_mul a (PConstraint b) = Ok c →
  (∃ c' v v',
     Constraint_mul b (PConstraint a) = Ok c' ∧ hint c' = hint c ∧
     qfn c df = Ok v ∧ qfn c' df = Ok v' ∧ Forall2 Qeq v v') ∧
  (∃ aa, Constraint_mul a (PConstraint a) = Ok aa ∧ qfn aa df = qfn a df).
Proof.
  intros Ha Hb Hc. split.
  - destruct (Constraint_mul_swap a b c Hc) as (c' & Hc' & Hh).
    destruct (Constraint_mul_vector a b c df Ha Hb Hc)
      as (va & vb & Hva & Hvb & _ & _ & Hv).
    destruct (Constraint_mul_vector b a c' df Hb Ha Hc')
      as (vb' & va' & Hvb' & Hva' & _ & _ & Hv').
    assert (va' = va) as -> by congruence. assert (vb' = vb) as -> by congruence.
    eexists c', _, _. repeat (split; [done|]).
    apply zip_with_comm_Qeq. intros. apply Q.max_comm.
  - apply Constraint_mul_constraint_Ok in Hc
      as (h1 & h2 & p1 & p2 & Hh1 & _ & Hp1 & _).
    destruct (Constraint_mul_constraint_max a a h1 h1 p1 p1)
      as (aa & Haa & Hq); try done.
    exists aa. split; [done|].
    destruct (constraint_object_length a df Ha) as (va & Hva & _).
    rewrite (Hq df va va Hva Hva eq_refl), Hva. f_equal.
    clear. induction va as [|x va IH]; simpl; [done|].
    by rewrite Qmax_same, IH.
Qed.

End ScoreAlgebra.

Lemma Constraint_add_comm_witness :
  ∃ c,
    constraint_object (L := stub_library) never ∧
    constraint_object (L := stub_library) (DictValue "state" [VStr "NY"]) ∧
    Constraint_add never (PConstraint (DictValue "state" [VStr "NY"])) = Ok c ∧
    ∃ c' v v',
      Constraint_add (DictValue "state" [VStr "NY"]) (PConstraint never) = Ok c' ∧
      hint c' = hint c ∧
      qfn c cities = Ok v ∧ qfn c' cities = Ok v' ∧ Forall2 Qeq v v'.
Proof.
  eexists. split; [constructor|]. split; [constructor|].
  split; [reflexivity|].
  apply (Constraint_add_comm (L := stub_library));
    [constructor | constructor | reflexivity].
Defined.

Lemma Constraint_add_nested_weights_witness :
  ∃ ab abd,
    constraint_object (L := stub_library) never ∧
    constraint_object (L := stub_library) (DictValue "state" [VStr "NY"]) ∧
    constraint_object (L := stub_library) (DictValue "city" [VStr "SF"]) ∧
    Constraint_add never (PConstraint (DictValue "state" [VStr "NY"])) = Ok ab ∧
    Constraint_add ab (PConstraint (DictValue "city" [VStr "SF"])) = Ok abd ∧
    ∃ va vb vd v,
      qfn never cities = Ok va ∧
      qfn (DictValue "state" [VStr "NY"]) cities = Ok vb ∧
      qfn (DictValue "city" [VStr "SF"]) cities = Ok vd ∧
      qfn abd cities = Ok v ∧ length v = nrows cities ∧
      ∀ i x y z, va !! i = Some x → vb !! i = Some y → vd !! i = Some z →
        ∃ s, v !! i = Some s ∧ s == x / 4 + y / 4 + z / 2.
Proof.
  eexists _, _. split; [constructor|]. split; [constructor|].
  split; [constructor|]. split; [reflexivity|]. split; [reflexivity|].
  eapply (Constraint_add_nested_weights (L := stub_library));
    [constructor | constructor | constructor | reflexivity | reflexivity].
Defined.

Lemma Constraint_mul_comm_idem_witness :
  ∃ c,
    constraint_object (L := stub_library) never ∧
    constraint_object (L := stub_library) (DictValue "state" [VStr "NY"]) ∧
    Constraint_mul never (PConstraint (DictValue "state" [VStr "NY"])) = Ok c ∧
    (∃ c' v v',
       Constraint_mul (DictValue "state" [VStr "NY"]) (PConstraint never) = Ok c' ∧
       hint c' = hint c ∧
       qfn c cities = Ok v ∧ qfn c' cities = Ok v' ∧ Forall2 Qeq v v') ∧
    (∃ aa, Constraint_mul never (PConstraint never) = Ok aa ∧
           qfn aa cities = qfn never cities).
Proof.
  eexists. split; [constructor|]. split; [constructor|].
  split; [reflexivity|].
  apply (Constraint_mul_comm_idem (L := stub_library));
    [constructor | constructor | reflexivity].
Defined.

(** X12. [FD] and [Shape] constraints cannot be averaged: [+] with one
    of them on either side raises [AttributeError], an [FD] for want of
    [hintParams], a [Shape] for want of [hint]. *)
Theorem Constraint_add_FD_Shape_raises (x : Constraint) (o : pyobj)
    (source target : list string) (rows cols : nat) :
  Constraint_add (FD source target) o = Raise AttributeError ∧
  Constraint_add (Shape rows cols) o = Raise AttributeError ∧
  Constraint_add x (PConstraint (FD source target)) = Raise AttributeError ∧
  Constraint_add x (PConstraint (Shape rows cols)) = Raise AttributeError.
Proof.
  unfold Constraint_add, get_hint, get_hintParams. simpl.
  repeat split.
  - destruct o as [c|w]; simpl; [|done]. unfold get_hint. by destruct (hint c).
  - by destruct (hint x), (hintParams x).
  - by destruct (hint x).
Qed.

(** ** The search loop *)

Section SearchResults.
Context {G : Generators}.
Variables (costFn : Constraint) (efn : DataFrame → exc Vec).
Variables (operations : list OperationKind) (inflation editCost : Q).

Lemma best_value_mk b h c sc sk :
  best_value (mkSearchState b h c sc sk) = b.1.1.
Proof. reflexivity. Qed.

Lemma best_frame_mk b h c sc sk :
  best_frame (mkSearchState b h c sc sk) = b.2.
Proof. reflexivity. Qed.

(** X13. What the loop ends with is the initial entry or a candidate it
    scored: the table [best] holds is the input, or a table with rows
    and columns that an operation produced, held together with its own
    combined score, which is below 2.0. *)
Theorem treeSearch_best_is_candidate df evaluations st :
  treeSearch_run efn df costFn operations evaluations inflation editCost = Ok st →
  best st = (2, NOOP, df) ∨
  ((best_frame st, best_value st) ∈ scored st ∧
   pruningRules (best_frame st) = false ∧
   combined_score costFn efn editCost (best_frame st) = Ok (best_value st) ∧
   best_value st < 2).
Proof.
  intros Hrun.
  set (P := λ st : SearchState,
         best st = (2, NOOP, df) ∨
         ((best_frame st, best_value st) ∈ scored st ∧ best_value st < 2)).
  assert (P st) as [Hinit|[Hin Hlt]].
  { apply (treeSearch_run_inv costFn efn operations inflation editCost
             P df evaluations st); [by left| |done].
    intros i s s' Hs.
    apply (treeSearch_round_inv costFn efn operations inflation editCost
             P i s s' Hs); [done|].
    intros opbranch t t' Ht Hb.
    apply treeSearch_branch_cases in Hb
      as [->|[[_ ->]|(o & m & _ & _ & Hp & Hm & ->)]]; [done|done|].
    unfold P. rewrite best_value_mk, best_frame_mk. cbn [best scored].
    destruct (Qltb m (best_value t)) eqn:Hlt.
    - apply Qltb_lt in Hlt. right. simpl. split; [set_solver|].
      destruct Ht as [Ht|[_ Ht]]; [|lra].
      unfold best_value in Hlt. rewrite Ht in Hlt. simpl in Hlt. done.
    - destruct Ht as [Ht|[Hin Ht]]; [by left|]. right.
      split; [|done]. apply elem_of_app. by left. }
  - by left.
  - right. split; [done|].
    destruct (treeSearch_scored costFn efn operations inflation editCost
                df evaluations st _ _ Hrun Hin) as [Hp Hn].
    done.
Qed.

(** X14. Ties go to the earlier candidate: when [best] was replaced, the
    entry it holds is a scored candidate whose value is strictly below
    the value of every candidate scored before it and at most the value
    of every candidate scored after it; when it was never replaced, no
    scored candidate is below 2.0. *)
Theorem treeSearch_first_minimum df evaluations st :
  treeSearch_run efn df costFn operations evaluations inflation editCost = Ok st →
  (best st = (2, NOOP, df) ∧ ∀ o n, (o, n) ∈ scored st → 2 <= n) ∨
  (∃ before after,
     scored st = before ++ (best_frame st, best_value st) :: after ∧
     best_value st < 2 ∧
     (∀ o n, (o, n) ∈ before → best_value st < n) ∧
     (∀ o n, (o, n) ∈ after → best_value st <= n)).
Proof.
  set (P := λ st : SearchState,
         (best st = (2, NOOP, df) ∧ ∀ o n, (o, n) ∈ scored st → 2 <= n) ∨
         (∃ before after,
            scored st = before ++ (best_frame st, best_value st) :: after ∧
            best_value st < 2 ∧
            (∀ o n, (o, n) ∈ before → best_value st < n) ∧
            (∀ o n, (o, n) ∈ after → best_value st <= n))).
  apply (treeSearch_run_inv costFn efn operations inflation editCost P).
  { left. split; [done|]. intros o n Hin. by apply elem_of_nil in Hin. }
  intros i s s' Hs.
  apply (treeSearch_round_inv costFn efn operations inflation editCost
           P i s s' Hs); [done|].
  intros opbranch t t' Ht Hb.
  apply treeSearch_branch_cases in Hb
    as [->|[[_ ->]|(o & m & _ & _ & Hp & Hm & ->)]]; [done|done|].
  unfold P. rewrite best_value_mk, best_frame_mk. cbn [best scored].
  destruct (Qltb m (best_value t)) eqn:Hlt.
  - apply Qltb_lt in Hlt. right. exists (scored t), []. simpl.
    split; [done|].
    destruct Ht as [[Ht Hall]|(before & after & Hsc & Hlt2 & Hb & Ha)].
    + unfold best_value in Hlt. rewrite Ht in Hlt. simpl in Hlt.
      split; [done|]. split.
      * intros o' n Hin. specialize (Hall _ _ Hin). lra.
      * intros o' n Hin. by apply elem_of_nil in Hin.
    + split; [lra|]. split.
      * intros o' n. rewrite Hsc, elem_of_app, elem_of_cons.
        intros [Hin|[[= -> ->]|Hin]]; [|done|].
        -- specialize (Hb _ _ Hin). lra.
        -- specialize (Ha _ _ Hin). lra.
      * intros o' n Hin. by apply elem_of_nil in Hin.
  - apply Qltb_ge in Hlt.
    destruct Ht as [[Ht Hall]|(before & after & Hsc & Hlt2 & Hb & Ha)].
    + left. split; [done|]. intros o' n.
      rewrite elem_of_app, list_elem_of_singleton.
      intros [Hin|[= -> ->]]; [by apply (Hall o')|].
      unfold best_value in Hlt. by rewrite Ht in Hlt.
    + right. exists before, (after ++ [(o, m)]).
      split; [by rewrite Hsc, <- app_assoc|]. split; [done|]. split; [done|].
      intros o' n. rewrite elem_of_app, list_elem_of_singleton.
      intros [Hin|[= -> ->]]; [by apply (Ha o')|done].
Qed.

(** X15. A round never makes the result worse: after one more round the
    value of [best] is no larger, the candidates scored so far are still
    there, in order, and the bad-operation cache has lost nothing. *)
Theorem treeSearch_round_improves df evaluations st st' :
  treeSearch_run efn df costFn operations evaluations inflation editCost = Ok st →
  treeSearch_run efn df costFn operations (S evaluations) inflation editCost
    = Ok st' →
  best_value st' <= best_value st ∧
  (∃ more, scored st' = scored st ++ more) ∧
  bad_op_cache st ⊆ bad_op_cache st'.
Proof.
  intros Hrun Hnext. rewrite treeSearch_run_succ, Hrun in Hnext.
  simpl in Hnext. revert Hnext.
  set (P := λ s : SearchState,
         best_value s <= best_value st ∧
         (∃ more, scored s = scored st ++ more) ∧
         bad_op_cache st ⊆ bad_op_cache s).
  assert (P st) as Hst.
  { split; [apply Qle_refl|]. split; [|done]. exists []. by rewrite app_nil_r. }
  apply (treeSearch_round_inv costFn efn operations inflation editCost
           P evaluations st st' Hst); [done|].
  intros opbranch t t' (Hv & [more Hsc] & Hbad) Hb.
  apply treeSearch_branch_cases in Hb
    as [->|[[_ ->]|(o & m & _ & _ & Hp & Hm & ->)]].
  - unfold P. eauto.
  - split; [done|]. split; [by exists more|]. simpl. set_solver.
  - unfold P. rewrite best_value_mk. cbn [scored bad_op_cache].
    split; [|split; [|done]].
    + destruct (Qltb m (best_value t)) eqn:Hlt; [|done].
      apply Qltb_lt in Hlt. simpl. lra.
    + exists (more ++ [(o, m)]). by rewrite Hsc, <- app_assoc.
Qed.

(** X16. The operation returned replays the search: when [NOOP] leaves
    a frame as it is and [a * b] runs [a] and then [b], running the
    operation of [best] on the input gives the table of [best]. *)
Theorem treeSearch_replay df evaluations st :
  (∀ d, op_run NOOP d = Ok d) →
  (∀ a b d, op_run (op_mul a b) d = (d' ← op_run a d; op_run b d')) →
  treeSearch_run efn df costFn operations evaluations inflation editCost = Ok st →
  op_run (best_op st) df = Ok (best_frame st).
Proof.
  intros Hnoop Hmul.
  set (P := λ st : SearchState, op_run (best_op st) df = Ok (best_frame st)).
  apply (treeSearch_run_inv costFn efn operations inflation editCost P).
  { unfold P, best_op, best_frame. simpl. apply Hnoop. }
  intros i s s' Hs.
  apply (treeSearch_round_inv costFn efn operations inflation editCost
           P i s s' Hs); [done|].
  intros opbranch t t' Ht Hb.
  apply treeSearch_branch_cases in Hb
    as [->|[[_ ->]|(o & m & _ & Hrun & Hp & Hm & ->)]]; [done|done|].
  unfold P in *. unfold best_op at 1. unfold best_frame at 1. cbn [best].
  destruct (Qltb m (best_value t)); [|done]. simpl.
  rewrite Hmul, Hs. simpl. done.
Qed.

End SearchResults.

Lemma treeSearch_best_is_candidate_witness :
  ∃ st,
    treeSearch_run (G := toy_generators)
      (qfn (CellEdit (L := stub_library) cities ∅))
      cities (FD ["city"] ["state"]) [ToyKeep; ToyFail; ToyDropLast] 3 5 1
      = Ok st ∧
    (best st = (2, ToyNoop, cities) ∨
     ((best_frame st, best_value st) ∈ scored st ∧
      pruningRules (best_frame st) = false ∧
      combined_score (FD ["city"] ["state"])
        (qfn (CellEdit (L := stub_library) cities ∅)) 1 (best_frame st)
        = Ok (best_value st) ∧
      best_value st < 2)).
Proof.
  eexists. split; [vm_compute; reflexivity|].
  apply (treeSearch_best_is_candidate (G := toy_generators)
           (FD ["city"] ["state"])
           (qfn (CellEdit (L := stub_library) cities ∅))
           [ToyKeep; ToyFail; ToyDropLast] 5 1
           cities 3).
  vm_compute; reflexivity.
Defined.

Lemma treeSearch_first_minimum_witness :
  ∃ st,
    treeSearch_run (G := toy_generators)
      (qfn (CellEdit (L := stub_library) cities ∅))
      cities (FD ["city"] ["state"]) [ToyKeep; ToyFail; ToyDropLast] 3 5 1
      = Ok st ∧
    ((best st = (2, ToyNoop, cities) ∧ ∀ o n, (o, n) ∈ scored st → 2 <= n) ∨
     (∃ before after,
        scored st = before ++ (best_frame st, best_value st) :: after ∧
        best_value st < 2 ∧
        (∀ o n, (o, n) ∈ before → best_value st < n) ∧
        (∀ o n, (o, n) ∈ after → best_value st <= n))).
Proof.
  eexists. split; [vm_compute; reflexivity|].
  apply (treeSearch_first_minimum (G := toy_generators)
           (FD ["city"] ["state"])
           (qfn (CellEdit (L := stub_library) cities ∅))
           [ToyKeep; ToyFail; ToyDropLast] 5 1
           cities 3).
  vm_compute; reflexivity.
Defined.

Lemma treeSearch_round_improves_witness :
  ∃ st st',
    treeSearch_run (G := toy_generators)
      (qfn (CellEdit (L := stub_library) cities ∅))
      cities (FD ["city"] ["state"]) [ToyKeep; ToyFail; ToyDropLast] 2 5 1
      = Ok st ∧
    treeSearch_run (G := toy_generators)
      (qfn (CellEdit (L := stub_library) cities ∅))
      cities (FD ["city"] ["state"]) [ToyKeep; ToyFail; ToyDropLast] 3 5 1
      = Ok st' ∧
    best_value st' <= best_value st ∧
    (∃ more, scored st' = scored st ++ more) ∧
    bad_op_cache st ⊆ bad_op_cache st'.
Proof.
  eexists _, _. split; [vm_compute; reflexivity|].
  split; [vm_compute; reflexivity|].
  apply (treeSearch_round_improves (G := toy_generators)
           (FD ["city"] ["state"])
           (qfn (CellEdit (L := stub_library) cities ∅))
           [ToyKeep; ToyFail; ToyDropLast] 5 1
           cities 2); vm_compute; reflexivity.
Defined.

Lemma treeSearch_replay_witness :
  ∃ st,
    (∀ d, op_run (Generators := toy_generators) NOOP d = Ok d) ∧
    (∀ a b d, op_run (Generators := toy_generators) (op_mul a b) d
              = (d' ← op_run a d; op_run b d')) ∧
    treeSearch_run (G := toy_generators)
      (qfn (CellEdit (L := stub_library) cities ∅))
      cities (FD ["city"] ["state"]) [ToyKeep; ToyFail; ToyDropLast] 3 5 1
      = Ok st ∧
    op_run (best_op st) cities = Ok (best_frame st).
Proof.
  eexists. split; [reflexivity|]. split; [reflexivity|].
  split; [vm_compute; reflexivity|].
  apply (treeSearch_replay (G := toy_generators)
           (FD ["city"] ["state"])
           (qfn (CellEdit (L := stub_library) cities ∅))
           [ToyKeep; ToyFail; ToyDropLast] 5 1
           cities 3); [reflexivity | reflexivity | vm_compute; reflexivity].
Defined.

(** ** The search loop without candidates *)

(** X18. With a sampler that proposes nothing and a rule whose quality
    function returns, lines 139 to 190 give back [NOOP] and the input
    frame, whatever the budget of rounds; the fidelity function is
    never asked. *)
Theorem treeSearch_from_no_operations {G : Generators}
    (costFn : Constraint) (efn : DataFrame → exc Vec)
    (operations : list OperationKind) (inflation editCost : Q)
    (df : DataFrame) (evaluations : nat) :
  (∀ i d, getAllOperations i d costFn operations = []) →
  (∀ d, ∃ v, qfn costFn d = Ok v) →
  treeSearch_from efn df costFn operations evaluations inflation editCost
    = Ok (NOOP, df).
Proof.
  intros Hnone Hc. unfold treeSearch_from, treeSearch_run, for_range.
  destruct (for_each_total
              (λ st : SearchState, best st = (2, NOOP, df))
              (seq 0 evaluations)
              (treeSearch_round costFn efn operations inflation editCost)
              (treeSearch_init df)) as (st & -> & Hst); [done| |].
  - intros i s _ Hs. unfold treeSearch_round. rewrite Hs.
    destruct (prune_by_inflation inflation s); [eauto|].
    rewrite Hnone. destruct (Hc df) as [v ->]. simpl. eauto.
  - simpl. unfold best_op, best_frame. by rewrite Hst.
Qed.

Lemma treeSearch_from_no_operations_witness :
  (∀ i d, getAllOperations (Generators := toy_generators) i d never [] = []) ∧
  (∀ d, ∃ v, qfn never d = Ok v) ∧
  treeSearch_from (G := toy_generators)
    (qfn (CellEdit (L := stub_library) cities ∅)) cities never [] 10 5 1
    = Ok (ToyNoop, cities).
Proof.
  assert (∀ d, ∃ v, qfn never d = Ok v) as Hc.
  { intros d.
    destruct (constraint_object_length (L := stub_library) never d)
      as (v & Hv & _); [constructor|eauto]. }
  split; [reflexivity|]. split; [exact Hc|].
  apply (treeSearch_from_no_operations (G := toy_generators)
           never (qfn (CellEdit (L := stub_library) cities ∅)) [] 5 1
           cities 10); [reflexivity | exact Hc].
Defined.

(** X19. No error is fatal inside the loop: for a rule and a fidelity
    constraint that are constraint objects, lines 139 to 188 run through
    every round and end in a state, whatever the sampled operations do,
    an operation that raises included. *)
Theorem treeSearch_run_finishes {L : Library} {G : Generators}
    (costFn fidelity : Constraint) (operations : list OperationKind)
    (inflation editCost : Q) (df : DataFrame) (evaluations : nat) :
  constraint_object costFn → constraint_object fidelity →
  ∃ st, treeSearch_run (qfn fidelity) df costFn operations evaluations
          inflation editCost = Ok st.
Proof.
  intros Hc Hf. apply treeSearch_run_total.
  - intros d. destruct (constraint_object_length costFn d Hc) as (v & Hv & _).
    eauto.
  - intros d. destruct (constraint_object_length fidelity d Hf) as (v & Hv & _).
    eauto.
Qed.

Lemma treeSearch_run_finishes_witness :
  constraint_object (L := stub_library) never ∧
  constraint_object (L := stub_library) (CellEdit (L := stub_library) cities ∅) ∧
  ∃ st,
    treeSearch_run (G := toy_generators)
      (qfn (CellEdit (L := stub_library) cities ∅)) cities never
      [ToyKeep; ToyFail; ToyDropLast] 10 5 1 = Ok st.
Proof.
  assert (constraint_object (L := stub_library) never) as Hc by constructor.
  assert (constraint_object (L := stub_library)
            (CellEdit (L := stub_library) cities ∅)) as Hf
    by constructor.
  split; [exact Hc|]. split; [exact Hf|].
  apply (treeSearch_run_finishes (L := stub_library) (G := toy_generators)
           never (CellEdit (L := stub_library) cities ∅)
           [ToyKeep; ToyFail; ToyDropLast] 5 1 cities 10 Hc Hf).
Defined.
